(** * ClientsetSecretStore: a SecretStore backed by Keyset objects

    Shallow embedding of [upup/pkg/fi/secrets/clientset_secretstore.go].

    The Go code talks to an API server through the [KopsInterface]
    clientset.  Every call may observe what other writers did in the
    meantime, so the store is modelled as an interface (a type class over
    an abstract world [W]); the functions of the file are written once, in
    a small state monad that threads the world and records every store
    call, and are then run either against an arbitrary implementation of
    the interface or against the in-memory implementation [Mem] below. *)

From Stdlib Require Import ZArith String List Strings.Byte Ascii Decimal DecimalString Lia.
From Stdlib Require DecimalPos DecimalZ.
From stdpp Require Import gmap strings list.

Local Open Scope Z_scope.

(** ** Go values *)

(** [[]byte] *)
Abbreviation bytes := (list byte).

(** Package [k8s.io/apimachinery/pkg/api/errors] and the Go [error]
    values that flow through this file. *)
Module errors.

Inductive StatusReason :=
| StatusReasonUnknown
| StatusReasonNotFound
| StatusReasonAlreadyExists
| StatusReasonOther (reason : string).

(** A Go [error] that is not nil.  [StatusError] is what the API server
    answers; [Errorf] is a value built by [fmt.Errorf], kept with its
    format string and arguments; [OtherError] is any other failure
    (transport, serialisation, ...). *)
Inductive error :=
| StatusError (reason : StatusReason) (message : string)
| Errorf (format : string) (args : list FmtArg)
| OtherError (message : string)
with FmtArg :=
| ArgString (s : string)
| ArgError (e : error).

(** [ReasonForError]: only API status errors carry a reason. *)
Definition ReasonForError (err : error) : StatusReason :=
  match err with
  | StatusError reason _ => reason
  | _ => StatusReasonUnknown
  end.

Definition IsNotFound (err : error) : bool :=
  match ReasonForError err with
  | StatusReasonNotFound => true
  | _ => false
  end.

Definition IsAlreadyExists (err : error) : bool :=
  match ReasonForError err with
  | StatusReasonAlreadyExists => true
  | _ => false
  end.

End errors.
Export errors.

(** Package [k8s.io/kops/pkg/apis/kops]: the Keyset record. *)
Module kops.

(** [KeysetType] is a string type with two named constants; any other
    discriminator is kept as [KeysetTypeOther]. *)
Inductive KeysetType :=
| SecretTypeKeypair
| SecretTypeSecret
| KeysetTypeOther (raw : string).

Record KeysetItem := {
  Id : string;
  PrivateMaterial : bytes;
}.

Record KeysetSpec := {
  Type_ : KeysetType;
  Keys : list KeysetItem;
}.

Record Keyset := {
  Name : string;
  Spec : KeysetSpec;
}.

End kops.

(** Package [k8s.io/kops/upup/pkg/fi]: the value objects. *)
Module fi.

Record Secret := { Data : bytes }.

Record KeystoreItem := {
  Name : string;
  Id : string;
}.

End fi.

(** [strings.TrimPrefix]: [s] without the leading [prefix], or [s] itself
    when it does not start with [prefix]. *)
Definition HasPrefix (s prefix : string) : bool := String.prefix prefix s.

Definition TrimPrefix (s prefix : string) : string :=
  if HasPrefix s prefix
  then String.substring (String.length prefix)
                        (String.length s - String.length prefix) s
  else s.

(** The [String] method of [big.Int]: the decimal rendering. *)
Definition BigInt_String (z : Z) : string := NilZero.string_of_int (Z.to_int z).

(** NamePrefix is a prefix we use to avoid collisions with other keysets *)
Definition NamePrefix : string := "token-".

(** ** The collaborators *)

(** What a Go function returning [(T, error)] hands back when exactly one
    of the two is set. *)
Abbreviation result T := (T + error)%type.

(** [kopsinternalversion.KopsInterface], restricted to the three methods
    of [Keysets(namespace)] the file calls.  The first argument is the
    namespace. *)
Class KopsInterface (W : Type) := {
  Keysets_Get : string -> string -> W -> result kops.Keyset * W;
  Keysets_List : string -> W -> result (list kops.Keyset) * W;
  Keysets_Create : string -> kops.Keyset -> W -> result kops.Keyset * W;
}.

(** Functions of other packages this file calls; their code is not part of
    this file, so they are parameters of the development:
    [fi.FindPrimary], [fi.DeleteKeysetItem] (which receives the
    [Keysets(namespace)] client), [pki.BuildPKISerial] and
    [time.Now().UnixNano()]. *)
Class Packages (W : Type) := {
  FindPrimary : kops.Keyset -> option kops.KeysetItem;
  DeleteKeysetItem : string -> string -> kops.KeysetType -> string -> W -> option error * W;
  BuildPKISerial : Z -> W -> Z * W;
  UnixNano : W -> Z * W;
}.

(** ** Store calls and the monad *)

(** One entry per call made against the store, with its answer. *)
Inductive Event :=
| EvGet (ns name : string) (r : result kops.Keyset)
| EvList (ns : string) (r : result (list kops.Keyset))
| EvCreate (ns : string) (keyset : kops.Keyset) (r : result kops.Keyset)
| EvDeleteKeysetItem (ns name : string) (t : kops.KeysetType) (id : string) (r : option error).

Definition is_create (e : Event) : bool :=
  match e with EvCreate _ _ _ => true | _ => false end.

Definition is_get (e : Event) : bool :=
  match e with EvGet _ _ _ => true | _ => false end.

Definition count_events (p : Event -> bool) (tr : list Event) : nat :=
  length (List.filter p tr).

(** A computation either returns to its caller or ends the process
    ([glog.Fatalf] logs and exits). *)
Inductive Outcome (A : Type) :=
| Done (a : A)
| Fatal (format : string) (args : list FmtArg).
Arguments Done {A} a.
Arguments Fatal {A} format args.

Record State (W : Type) := MkState {
  world : W;
  trace : list Event;
}.
Arguments MkState {W} world trace.
Arguments world {W} s.
Arguments trace {W} s.

Definition M (W A : Type) : Type := State W -> Outcome A * State W.

Definition ret {W A} (a : A) : M W A := fun st => (Done a, st).

Definition bind {W A B} (m : M W A) (k : A -> M W B) : M W B :=
  fun st =>
    match m st with
    | (Done a, st') => k a st'
    | (Fatal f args, st') => (Fatal f args, st')
    end.

Notation "'let*' x ':=' m 'in' k" := (bind m (fun x => k))
  (at level 10, x pattern, m at level 100, k at level 200).

(** [glog.Fatalf] *)
Definition Fatalf {W A} (format : string) (args : list FmtArg) : M W A :=
  fun st => (Fatal format args, st).

(** Lifting of a collaborator into the monad; store calls are recorded. *)
Definition lift {W A} (f : W -> A * W) : M W A :=
  fun st => let (a, w) := f (world st) in (Done a, MkState w (trace st)).

Definition call {W A} (f : W -> A * W) (ev : A -> Event) : M W A :=
  fun st => let (a, w) := f (world st) in (Done a, MkState w (trace st ++ [ev a])).

(** Go's [(T, error)] pair, as the file itself returns it: both halves can
    be nil. *)
Abbreviation pair_err T := (option T * option error)%type.

Definition of_result {T} (r : result T) : pair_err T :=
  match r with
  | inl v => (Some v, None)
  | inr e => (None, Some e)
  end.

(** How one pass through the body of a [for] loop ends. *)
Inductive LoopStep (R : Type) :=
| Continue
| Break
| Return (r : R).
Arguments Continue {R}.
Arguments Break {R}.
Arguments Return {R} r.

(** [for i := lo; <n more passes>; i++ { body }; after] *)
Fixpoint for_loop {W R} (n : nat) (i : Z) (body : Z -> M W (LoopStep R))
    (after : M W R) : M W R :=
  match n with
  | O => after
  | S n' =>
      let* step := body i in
      match step with
      | Continue => for_loop n' (i + 1) body after
      | Break => after
      | Return r => ret r
      end
  end.

(** ** The file *)

(** ClientsetSecretStore is a SecretStore backed by Keyset objects in an
    API server; the clientset is the [KopsInterface] instance. *)
Record ClientsetSecretStore := {
  namespace : string;
}.

(** What GetOrCreateSecret returns: the secret, the created flag, the error. *)
Abbreviation GetOrCreate_result := (option fi.Secret * bool * option error)%type.

Section SecretStore.
Context {W : Type} `{KI : KopsInterface W} `{PK : Packages W}.

Definition Get (ns name : string) : M W (result kops.Keyset) :=
  call (Keysets_Get ns name) (EvGet ns name).

Definition List_ (ns : string) : M W (result (list kops.Keyset)) :=
  call (Keysets_List ns) (EvList ns).

Definition Create (ns : string) (keyset : kops.Keyset) : M W (result kops.Keyset) :=
  call (Keysets_Create ns keyset) (EvCreate ns keyset).

(** parseSecret attempts to parse the primary secret, otherwise returns nil *)
Definition parseSecret (keyset : kops.Keyset) : pair_err fi.Secret :=
  match FindPrimary keyset with
  | None => (None, None)
  | Some primary => (Some {| fi.Data := kops.PrivateMaterial primary |}, None)
  end.

(** loadSecret returns the named secret, if it exists, otherwise returns nil *)
Definition loadSecret (c : ClientsetSecretStore) (name : string)
  : M W (pair_err fi.Secret) :=
  let name := NamePrefix +:+ name in
  let* r := Get (namespace c) name in
  match r with
  | inr err =>
      if IsNotFound err then ret (None, None)
      else ret (None, Some (Errorf "error reading keyset %q: %v"
                                   [ArgString name; ArgError err]))
  | inl keyset => ret (parseSecret keyset)
  end.

(** FindSecret implements fi.SecretStore::FindSecret *)
Definition FindSecret (c : ClientsetSecretStore) (name : string)
  : M W (pair_err fi.Secret) :=
  let* (s, err) := loadSecret c name in
  match err with
  | Some err => ret (None, Some err)
  | None => ret (s, None)
  end.

(** One turn of the loop of ListSecrets over [list.Items]. *)
Definition ListSecrets_step (names : list string) (keyset : kops.Keyset)
  : list string :=
  match kops.Type_ (kops.Spec keyset) with
  | kops.SecretTypeSecret =>
      let name := TrimPrefix (kops.Name keyset) NamePrefix in
      names ++ [name]
  | _ => names
  end.

(** ListSecrets implements fi.SecretStore::ListSecrets *)
Definition ListSecrets (c : ClientsetSecretStore)
  : M W (list string * option error) :=
  let* r := List_ (namespace c) in
  match r with
  | inr err =>
      ret ([], Some (Errorf "error listing keysets: %v" [ArgError err]))
  | inl items => ret (fold_left ListSecrets_step items [], None)
  end.

(** Secret implements fi.SecretStore::Secret *)
Definition Secret (c : ClientsetSecretStore) (name : string)
  : M W (pair_err fi.Secret) :=
  let* (s, err) := FindSecret c name in
  match err with
  | Some err => ret (None, Some err)
  | None =>
      match s with
      | None => ret (None, Some (Errorf "Secret not found: %q" [ArgString name]))
      | Some s => ret (Some s, None)
      end
  end.

(** DeleteSecret implements fi.SecretStore::DeleteSecret *)
Definition DeleteSecret (c : ClientsetSecretStore) (item : fi.KeystoreItem)
  : M W (option error) :=
  let ns := namespace c in
  call (DeleteKeysetItem ns (fi.Name item) kops.SecretTypeKeypair (fi.Id item))
       (EvDeleteKeysetItem ns (fi.Name item) kops.SecretTypeKeypair (fi.Id item)).

(** The record createSecret builds for an entry id. *)
Definition newKeyset (s : fi.Secret) (name : string) (id : Z) : kops.Keyset :=
  {| kops.Name := NamePrefix +:+ name;
     kops.Spec := {| kops.Type_ := kops.SecretTypeSecret;
                     kops.Keys := [] ++ [ {| kops.Id := BigInt_String id;
                                             kops.PrivateMaterial := fi.Data s |} ] |} |}.

(** createSecret writes the secret, but only if it does not exist.  The
    secret is a [fi.Secret] value: the Go function dereferences its pointer
    argument, so a nil secret is outside this model. *)
Definition createSecret (c : ClientsetSecretStore) (s : fi.Secret) (name : string)
  : M W (pair_err kops.Keyset) :=
  let* t := lift UnixNano in
  let* id := lift (BuildPKISerial t) in
  let keyset := newKeyset s name id in
  let* r := Create (namespace c) keyset in
  ret (of_result r).

(** GetOrCreateSecret implements fi.SecretStore::GetOrCreateSecret *)
Definition GetOrCreateSecret_body (c : ClientsetSecretStore) (name : string)
    (secret : fi.Secret) (i : Z) : M W (LoopStep GetOrCreate_result) :=
  let* (s, err) := FindSecret c name in
  match err with
  | Some err => ret (Return (None, false, Some err))
  | None =>
      match s with
      | Some s => ret (Return (Some s, false, None))
      | None =>
          let* (_, err) := createSecret c secret name in
          match err with
          | Some err =>
              if IsAlreadyExists err && (i =? 0)
              then ret Continue
              else ret (Return (None, false, Some err))
          | None => ret Break
          end
      end
  end.

(** Make double-sure it round-trips *)
Definition GetOrCreateSecret_after (c : ClientsetSecretStore) (name : string)
  : M W GetOrCreate_result :=
  let* (s, err) := loadSecret c name in
  match err with
  | Some err =>
      Fatalf "unable to load secret immmediately after creation %v: %v"
             [ArgString name; ArgError err]
  | None => ret (s, true, None)
  end.

Definition GetOrCreateSecret (c : ClientsetSecretStore) (name : string)
    (secret : fi.Secret) : M W GetOrCreate_result :=
  for_loop 2 0 (GetOrCreateSecret_body c name secret)
           (GetOrCreateSecret_after c name).

End SecretStore.

(** ** Vocabulary of the statements *)

(** The record is one that ListSecrets reports. *)
Definition is_plain_secret (keyset : kops.Keyset) : bool :=
  match kops.Type_ (kops.Spec keyset) with
  | kops.SecretTypeSecret => true
  | _ => false
  end.

(** The state a store call leaves behind: the new world, and the call
    appended to the trace. *)
Definition record {W} (st : State W) (w : W) (ev : Event) : State W :=
  MkState w (trace st ++ [ev]).

(** The store calls made between two states of one run. *)
Definition calls_between {W} (st st' : State W) (new : list Event) : Prop :=
  trace st' = trace st ++ new.

Section Vocabulary.
Context {W : Type} `{KI : KopsInterface W} `{PK : Packages W}.
Variable c : ClientsetSecretStore.

(** The call loadSecret makes for a name. *)
Definition EvLoad (name : string) (r : result kops.Keyset) : Event :=
  EvGet (namespace c) (NamePrefix +:+ name) r.

(** The three ways loadSecret ends; it makes exactly one Get call. *)
Inductive loaded (name : string) (st : State W)
  : pair_err fi.Secret -> State W -> Prop :=
| loaded_secret keyset primary w :
    Keysets_Get (namespace c) (NamePrefix +:+ name) (world st) = (inl keyset, w) ->
    FindPrimary keyset = Some primary ->
    loaded name st (Some {| fi.Data := kops.PrivateMaterial primary |}, None)
           (record st w (EvLoad name (inl keyset)))
| loaded_absent r w :
    Keysets_Get (namespace c) (NamePrefix +:+ name) (world st) = (r, w) ->
    (exists err, r = inr err /\ IsNotFound err = true) \/
    (exists keyset, r = inl keyset /\ FindPrimary keyset = None) ->
    loaded name st (None, None) (record st w (EvLoad name r))
| loaded_error err w :
    Keysets_Get (namespace c) (NamePrefix +:+ name) (world st) = (inr err, w) ->
    IsNotFound err = false ->
    loaded name st
           (None, Some (Errorf "error reading keyset %q: %v"
                               [ArgString (NamePrefix +:+ name); ArgError err]))
           (record st w (EvLoad name (inr err))).


(** How one pass of the loop of GetOrCreateSecret ends, told by what
    FindSecret and createSecret answered. *)
Inductive pass (name : string) (secret : fi.Secret) (i : Z) (st : State W)
  : LoopStep GetOrCreate_result -> State W -> Prop :=
| pass_find_error s err st1 :
    FindSecret c name st = (Done (s, Some err), st1) ->
    pass name secret i st (Return (None, false, Some err)) st1
| pass_found s st1 :
    FindSecret c name st = (Done (Some s, None), st1) ->
    pass name secret i st (Return (Some s, false, None)) st1
| pass_created st1 k st2 :
    FindSecret c name st = (Done (None, None), st1) ->
    createSecret c secret name st1 = (Done (k, None), st2) ->
    pass name secret i st Break st2
| pass_conflict st1 k err st2 :
    FindSecret c name st = (Done (None, None), st1) ->
    createSecret c secret name st1 = (Done (k, Some err), st2) ->
    IsAlreadyExists err = true -> i = 0 ->
    pass name secret i st Continue st2
| pass_create_error st1 k err st2 :
    FindSecret c name st = (Done (None, None), st1) ->
    createSecret c secret name st1 = (Done (k, Some err), st2) ->
    IsAlreadyExists err = false \/ i <> 0 ->
    pass name secret i st (Return (None, false, Some err)) st2.

(** A create attempt of GetOrCreateSecret succeeded and left the state
    [st']: at the first pass, or at the second one after an
    already-exists conflict at the first. *)
Inductive create_succeeded (name : string) (secret : fi.Secret) (st : State W)
  : State W -> Prop :=
| created_at_first_attempt st1 k st2 :
    FindSecret c name st = (Done (None, None), st1) ->
    createSecret c secret name st1 = (Done (k, None), st2) ->
    create_succeeded name secret st st2
| created_at_second_attempt st1 k err st2 st3 k' st4 :
    FindSecret c name st = (Done (None, None), st1) ->
    createSecret c secret name st1 = (Done (k, Some err), st2) ->
    IsAlreadyExists err = true ->
    FindSecret c name st2 = (Done (None, None), st3) ->
    createSecret c secret name st3 = (Done (k', None), st4) ->
    create_succeeded name secret st st4.

End Vocabulary.

(** ** An in-memory API server

    The Keyset objects of every namespace, keyed by namespace and name,
    a clock, and a schedule of what the other clients of the same server
    do: before each of our store calls the next step of the schedule (if
    any) is applied to the objects.  An empty schedule is a run without
    concurrent writers. *)
Module Mem.

Abbreviation Objects := (gmap (string * string) kops.Keyset).

Record World := {
  keysets : Objects;
  clock : Z;
  others : list (Objects -> Objects);
}.

Definition interleave (w : World) : World :=
  match others w with
  | [] => w
  | step :: rest =>
      {| keysets := step (keysets w); clock := clock w; others := rest |}
  end.

Definition with_keysets (w : World) (ks : Objects) : World :=
  {| keysets := ks; clock := clock w; others := others w |}.

(** A world without concurrent writers. *)
Definition alone (ks : Objects) (now : Z) : World :=
  {| keysets := ks; clock := now; others := [] |}.

(** Modelled from the spec: the server behind [Keysets(ns).Get] is not
    part of this file.  Get answers with the record of that name, or fails
    with a not-found status. *)
Definition get (ns name : string) (w : World) : result kops.Keyset * World :=
  let w := interleave w in
  match keysets w !! (ns, name) with
  | Some keyset => (inl keyset, w)
  | None => (inr (StatusError StatusReasonNotFound name), w)
  end.

Definition in_namespace (ns : string) (kv : string * string * kops.Keyset) : bool :=
  String.eqb (fst (fst kv)) ns.

(** Modelled from the spec: the server behind [Keysets(ns).List] is not
    part of this file.  List answers with the records of the namespace, in
    the order the server keeps them. *)
Definition list_ (ns : string) (w : World) : result (list kops.Keyset) * World :=
  let w := interleave w in
  (inl (List.map snd (List.filter (in_namespace ns) (map_to_list (keysets w)))), w).

(** Modelled from the spec: the server behind [Keysets(ns).Create] is not
    part of this file.  Create fails with an already-exists status, and
    leaves the record alone, when the name is taken. *)
Definition create (ns : string) (keyset : kops.Keyset) (w : World)
  : result kops.Keyset * World :=
  let w := interleave w in
  match keysets w !! (ns, kops.Name keyset) with
  | Some _ => (inr (StatusError StatusReasonAlreadyExists (kops.Name keyset)), w)
  | None => (inl keyset, with_keysets w (<[(ns, kops.Name keyset) := keyset]> (keysets w)))
  end.

#[export] Instance clientset : KopsInterface World := {
  Keysets_Get := get;
  Keysets_List := list_;
  Keysets_Create := create;
}.

Definition has_id (id : string) (item : kops.KeysetItem) : bool :=
  String.eqb (kops.Id item) id.

(** Modelled from the spec: [fi.DeleteKeysetItem] is not part of this
    file.  It removes the entry with the given ID from the record with
    the given name, and fails if the item does not exist.  The spec says
    nothing about the item type it is handed, which is ignored here. *)
Definition deleteKeysetItem (ns name : string) (t : kops.KeysetType) (id : string)
    (w : World) : option error * World :=
  let w := interleave w in
  match keysets w !! (ns, name) with
  | None => (Some (StatusError StatusReasonNotFound name), w)
  | Some keyset =>
      let keys := kops.Keys (kops.Spec keyset) in
      if existsb (has_id id) keys then
        let keyset' :=
          {| kops.Name := kops.Name keyset;
             kops.Spec := {| kops.Type_ := kops.Type_ (kops.Spec keyset);
                             kops.Keys := List.filter (fun i => negb (has_id id i)) keys |} |} in
        (None, with_keysets w (<[(ns, name) := keyset']> (keysets w)))
      else
        (Some (Errorf "KeysetItem %q not found in Keyset %q" [ArgString id; ArgString name]), w)
  end.

(** Modelled from the spec: [fi.FindPrimary] is not part of this file.
    The primary is the first entry of the record; a record without
    entries has none. *)
Definition firstEntry (keyset : kops.Keyset) : option kops.KeysetItem :=
  head (kops.Keys (kops.Spec keyset)).

(** Modelled from the spec: [pki.BuildPKISerial] is not part of this
    file and the spec keeps it opaque; here the serial is the timestamp. *)
Definition serialOfTimestamp (t : Z) (w : World) : Z * World := (t, w).

(** The clock advances with every reading. *)
Definition unixNano (w : World) : Z * World :=
  (clock w, {| keysets := keysets w; clock := clock w + 1; others := others w |}).

(** The rule [fi.FindPrimary] follows is a parameter of the server. *)
Class PrimaryRule := findPrimary : kops.Keyset -> option kops.KeysetItem.

(** The other packages, for a given primary-selection rule. *)
#[export] Instance packages `{PrimaryRule} : Packages World := {
  FindPrimary := findPrimary;
  DeleteKeysetItem := deleteKeysetItem;
  BuildPKISerial := serialOfTimestamp;
  UnixNano := unixNano;
}.

(** Where the record of a secret is kept. *)
Definition secretKey (c : ClientsetSecretStore) (name : string) : string * string :=
  (namespace c, NamePrefix +:+ name).

(** A run starts with an empty trace. *)
Definition start (w : World) : State World := MkState w [].

(** No other client is active from this state on. *)
Definition quiet (st : State World) : Prop := others (world st) = [].

End Mem.

(** ** Sample data for the in-memory server *)
Module Sample.
Import Mem.

Definition store : ClientsetSecretStore := {| namespace := "kops" |}.

Definition secretA : fi.Secret := {| fi.Data := [x61; x6c; x66; x61] |}.
Definition secretB : fi.Secret := {| fi.Data := [x62; x65; x74; x61] |}.

Definition keyset (name : string) (t : kops.KeysetType)
    (keys : list (string * bytes)) : kops.Keyset :=
  {| kops.Name := name;
     kops.Spec := {| kops.Type_ := t;
                     kops.Keys := List.map (fun k => {| kops.Id := fst k;
                                                        kops.PrivateMaterial := snd k |}) keys |} |}.

Definition put (k : kops.Keyset) (ks : Objects) : Objects :=
  <[("kops", kops.Name k) := k]> ks.

(** No object at all. *)
Definition fresh : World := alone ∅ 1500000000000000000.

(** Two plain secrets next to a keypair. *)
Definition mixed : World :=
  alone (put (keyset "token-admin" kops.SecretTypeSecret [("11", [x31])])
        (put (keyset "ca" kops.SecretTypeKeypair [("12", [x32])])
        (put (keyset "token-kube" kops.SecretTypeSecret [("13", [x33])]) ∅)))
        1500000000000000000.

#[export] Instance firstEntryRule : PrimaryRule := firstEntry.

(** Another client wins the race for "token-admin": its record appears
    between our first Get and our Create. *)
Definition winner : kops.Keyset :=
  keyset "token-admin" kops.SecretTypeSecret [("77", fi.Data secretB)].

Definition lostRace : World :=
  {| keysets := ∅; clock := 1500000000000000000;
     others := [fun ks => ks; put winner] |}.

(** Another client replaces our record between our Create and the
    re-read. *)
Definition replaced : World :=
  {| keysets := ∅; clock := 1500000000000000000;
     others := [fun ks => ks; fun ks => ks; put winner] |}.

(** Another client deletes our record between our Create and the
    re-read. *)
Definition deleted : World :=
  {| keysets := ∅; clock := 1500000000000000000;
     others := [fun ks => ks; fun ks => ks; delete ("kops", "token-admin")] |}.

(** Another client replaces our record by one without entries between
    our Create and the re-read. *)
Definition emptied : World :=
  {| keysets := ∅; clock := 1500000000000000000;
     others := [fun ks => ks; fun ks => ks;
                put (keyset "token-admin" kops.SecretTypeSecret [])] |}.

(** Another client creates the record before our first Create and
    deletes it before our second Get. *)
Definition flapping : World :=
  {| keysets := ∅; clock := 1500000000000000000;
     others := [fun ks => ks; put winner; delete ("kops", "token-admin");
                put winner] |}.

End Sample.

(** ** The rest of the file *)

(** Package [k8s.io/kops/util/pkg/vfs]: a path of the virtual file
    system.  This file only ever produces the nil path. *)
Module vfs.
Inductive Path := PathOf (p : string).
End vfs.

(** NewClientsetSecretStore is the constructor for ClientsetSecretStore *)
Definition NewClientsetSecretStore {W : Type} (clientset : KopsInterface W)
    (namespace : string) : ClientsetSecretStore :=
  {| namespace := namespace |}.

Section RestOfFile.
Context {W : Type} `{KI : KopsInterface W} `{PK : Packages W}.

(** VFSPath implements fi.SecretStore::VFSPath *)
Definition VFSPath (c : ClientsetSecretStore) : M W (option vfs.Path) :=
  let* _ := (Fatalf "ClientsetSecretStore::VFSPath not implemented" [] : M W unit) in
  ret None.

End RestOfFile.

(** ** Vocabulary of the statements about store calls *)

(** The namespace a store call is made in. *)
Definition event_namespace (e : Event) : string :=
  match e with
  | EvGet ns _ _ => ns
  | EvList ns _ => ns
  | EvCreate ns _ _ => ns
  | EvDeleteKeysetItem ns _ _ _ _ => ns
  end.

(** Every store call the computation makes is in namespace [ns]. *)
Definition confined {W A} (ns : string) (m : M W A) : Prop :=
  forall st out st',
    m st = (out, st') ->
    exists new, calls_between st st' new /\
                Forall (fun e => event_namespace e = ns) new.

(** A Create call that succeeded. *)
Definition is_successful_create (e : Event) : bool :=
  match e with
  | EvCreate _ _ (inl _) => true
  | _ => false
  end.

Section CallShapes.
Variable c : ClientsetSecretStore.
Variables (name : string) (secret : fi.Secret).

(** The Get of the record of [name]. *)
Inductive load_call : Event -> Prop :=
| load_call_intro r :
    load_call (EvGet (namespace c) ("token-" +:+ name) r).

(** The Create of a one-entry record for [name] that carries the payload
    of [secret]. *)
Inductive submit_call : Event -> Prop :=
| submit_call_intro id r :
    submit_call
      (EvCreate (namespace c)
                {| kops.Name := "token-" +:+ name;
                   kops.Spec := {| kops.Type_ := kops.SecretTypeSecret;
                                   kops.Keys := [ {| kops.Id := BigInt_String id;
                                                     kops.PrivateMaterial := fi.Data secret |} ] |} |}
                r).

(** Loads and submits in turn, a load first. *)
Inductive alternating : list Event -> Prop :=
| alternating_nil : alternating []
| alternating_load e : load_call e -> alternating [e]
| alternating_pair e1 e2 l :
    load_call e1 -> submit_call e2 -> alternating l ->
    alternating (e1 :: e2 :: l).

(** The store calls of one pass of the loop, by the way the pass ends. *)
Inductive pass_events : LoopStep GetOrCreate_result -> list Event -> Prop :=
| events_find_error cause :
    IsNotFound cause = false ->
    pass_events
      (Return (None, false,
               Some (Errorf "error reading keyset %q: %v"
                            [ArgString (NamePrefix +:+ name); ArgError cause])))
      [EvGet (namespace c) (NamePrefix +:+ name) (inr cause)]
| events_found r s :
    pass_events (Return (Some s, false, None))
                [EvGet (namespace c) (NamePrefix +:+ name) r]
| events_created r id k :
    pass_events Break
                [EvGet (namespace c) (NamePrefix +:+ name) r;
                 EvCreate (namespace c) (newKeyset secret name id) (inl k)]
| events_conflict r id err :
    IsAlreadyExists err = true ->
    pass_events Continue
                [EvGet (namespace c) (NamePrefix +:+ name) r;
                 EvCreate (namespace c) (newKeyset secret name id) (inr err)]
| events_create_error r id err :
    pass_events (Return (None, false, Some err))
                [EvGet (namespace c) (NamePrefix +:+ name) r;
                 EvCreate (namespace c) (newKeyset secret name id) (inr err)].

(** The store calls of the re-read, by its outcome. *)
Inductive after_events : Outcome GetOrCreate_result -> list Event -> Prop :=
| events_reread r s :
    after_events (Done (s, true, None))
                 [EvGet (namespace c) (NamePrefix +:+ name) r]
| events_fatal cause :
    IsNotFound cause = false ->
    after_events
      (Fatal "unable to load secret immmediately after creation %v: %v"
             [ArgString name;
              ArgError (Errorf "error reading keyset %q: %v"
                               [ArgString (NamePrefix +:+ name); ArgError cause])])
      [EvGet (namespace c) (NamePrefix +:+ name) (inr cause)].

(** The store calls of a whole run of GetOrCreateSecret, by its outcome. *)
Inductive run_events : Outcome GetOrCreate_result -> list Event -> Prop :=
| run_first_return res new :
    pass_events (Return res) new -> run_events (Done res) new
| run_first_created out new last :
    pass_events Break new -> after_events out last ->
    run_events out (new ++ last)
| run_second_return res new0 new1 :
    pass_events Continue new0 -> pass_events (Return res) new1 ->
    run_events (Done res) (new0 ++ new1)
| run_second_created out new0 new1 last :
    pass_events Continue new0 -> pass_events Break new1 ->
    after_events out last ->
    run_events out ((new0 ++ new1) ++ last).

End CallShapes.

(** ** More of the in-memory server *)

(** The world after createSecret read the clock. *)
Definition ticked (w : Mem.World) : Mem.World :=
  {| Mem.keysets := Mem.keysets w; Mem.clock := Mem.clock w + 1;
     Mem.others := Mem.others w |}.

(** * Properties *)

(** ** Equations of the monad *)

Section MonadFacts.
Context {W : Type}.

Lemma bind_Done {A B} (m : M W A) (k : A -> M W B) st a st' :
  m st = (Done a, st') -> bind m k st = k a st'.
Proof. intros Hm. unfold bind. now rewrite Hm. Qed.

Lemma bind_Fatal {A B} (m : M W A) (k : A -> M W B) st f args st' :
  m st = (Fatal f args, st') -> bind m k st = (Fatal f args, st').
Proof. intros Hm. unfold bind. now rewrite Hm. Qed.

Lemma call_eq {A} (f : W -> A * W) (ev : A -> Event) st a w :
  f (world st) = (a, w) -> call f ev st = (Done a, record st w (ev a)).
Proof. intros Hf. unfold call. now rewrite Hf. Qed.

Lemma lift_eq {A} (f : W -> A * W) st a w :
  f (world st) = (a, w) -> lift f st = (Done a, MkState w (trace st)).
Proof. intros Hf. unfold lift. now rewrite Hf. Qed.

Lemma calls_between_refl (st : State W) : calls_between st st [].
Proof. unfold calls_between. now rewrite app_nil_r. Qed.

Lemma calls_between_record (st : State W) w ev :
  calls_between st (record st w ev) [ev].
Proof. reflexivity. Qed.

Lemma calls_between_trans (st1 st2 st3 : State W) l1 l2 :
  calls_between st1 st2 l1 -> calls_between st2 st3 l2 ->
  calls_between st1 st3 (l1 ++ l2).
Proof.
  unfold calls_between. intros H1 H2. rewrite H2, H1. now rewrite app_assoc.
Qed.

End MonadFacts.

(** ** strings.TrimPrefix *)

Lemma prefix_app (p s : string) : String.prefix p (p +:+ s) = true.
Proof.
  induction p as [|a p IH]; simpl.
  - now destruct s.
  - destruct (Ascii.ascii_dec a a) as [_|Hne]; [exact IH | now elim Hne].
Qed.

Lemma string_length_app (p s : string) :
  String.length (p +:+ s) = (String.length p + String.length s)%nat.
Proof. induction p as [|a p IH]; simpl; [reflexivity | now rewrite IH]. Qed.

Lemma substring_all (s : string) : String.substring 0 (String.length s) s = s.
Proof. induction s as [|a s IH]; simpl; [reflexivity | now rewrite IH]. Qed.

Lemma substring_app (p s : string) (n : nat) :
  String.substring (String.length p) n (p +:+ s) = String.substring 0 n s.
Proof. induction p as [|a p IH]; simpl; [reflexivity | exact IH]. Qed.

(** Stripping the prefix undoes prepending it, whatever the name. *)
Lemma TrimPrefix_app (p s : string) : TrimPrefix (p +:+ s) p = s.
Proof.
  unfold TrimPrefix, HasPrefix. rewrite prefix_app, substring_app, string_length_app.
  replace (String.length p + String.length s - String.length p)%nat
    with (String.length s) by lia.
  apply substring_all.
Qed.

(** A prefixed name is never the name itself. *)
Lemma NamePrefix_app_neq (name : string) : NamePrefix +:+ name <> name.
Proof.
  intros Heq. apply (f_equal String.length) in Heq.
  rewrite string_length_app in Heq. simpl in Heq. lia.
Qed.

(** ** The accessors, against any implementation of the store *)

Section Accessors.
Context {W : Type} `{KI : KopsInterface W} `{PK : Packages W}.
Variable c : ClientsetSecretStore.

Lemma loadSecret_found name st keyset w :
  Keysets_Get (namespace c) (NamePrefix +:+ name) (world st) = (inl keyset, w) ->
  loadSecret c name st
  = (Done (parseSecret keyset), record st w (EvLoad c name (inl keyset))).
Proof.
  intros Hget. unfold loadSecret, Get.
  now rewrite (bind_Done _ _ _ _ _ (call_eq _ _ _ _ _ Hget)).
Qed.

Lemma loadSecret_not_found name st err w :
  Keysets_Get (namespace c) (NamePrefix +:+ name) (world st) = (inr err, w) ->
  IsNotFound err = true ->
  loadSecret c name st = (Done (None, None), record st w (EvLoad c name (inr err))).
Proof.
  intros Hget Hnf. unfold loadSecret, Get.
  rewrite (bind_Done _ _ _ _ _ (call_eq _ _ _ _ _ Hget)). now rewrite Hnf.
Qed.

Lemma loadSecret_failed name st err w :
  Keysets_Get (namespace c) (NamePrefix +:+ name) (world st) = (inr err, w) ->
  IsNotFound err = false ->
  loadSecret c name st
  = (Done (None, Some (Errorf "error reading keyset %q: %v"
                              [ArgString (NamePrefix +:+ name); ArgError err])),
     record st w (EvLoad c name (inr err))).
Proof.
  intros Hget Hnf. unfold loadSecret, Get.
  rewrite (bind_Done _ _ _ _ _ (call_eq _ _ _ _ _ Hget)). now rewrite Hnf.
Qed.

Lemma loadSecret_loaded name st :
  exists a st', loadSecret c name st = (Done a, st') /\ loaded c name st a st'.
Proof.
  destruct (Keysets_Get (namespace c) (NamePrefix +:+ name) (world st))
    as [[keyset|err] w] eqn:Hget.
  - rewrite (loadSecret_found _ _ _ _ Hget). unfold parseSecret.
    destruct (FindPrimary keyset) as [primary|] eqn:Hp; do 2 eexists; split;
      try reflexivity.
    + now apply loaded_secret.
    + eapply loaded_absent; eauto.
  - destruct (IsNotFound err) eqn:Hnf.
    + rewrite (loadSecret_not_found _ _ _ _ Hget Hnf). do 2 eexists; split;
        [reflexivity | eapply loaded_absent; eauto].
    + rewrite (loadSecret_failed _ _ _ _ Hget Hnf). do 2 eexists; split;
        [reflexivity | now apply loaded_error].
Qed.

(** FindSecret hands back what loadSecret returned. *)
Lemma FindSecret_loadSecret name st : FindSecret c name st = loadSecret c name st.
Proof.
  unfold FindSecret.
  destruct (loadSecret_loaded name st) as (a & st' & Hload & Hcase).
  rewrite (bind_Done _ _ _ _ _ Hload), Hload. now destruct Hcase.
Qed.

End Accessors.

Section AccessorClaims.
Context {W : Type} `{KI : KopsInterface W} `{PK : Packages W}.
Variable c : ClientsetSecretStore.

(** C4.  FindSecret answers "absent" with no error both when the store
    has no record for the name (the Get fails with not-found) and when
    the record has no primary entry; Secret turns the same answer into
    the error "Secret not found"; and whenever FindSecret returns an
    error, the Get failed with something other than not-found. *)
Theorem FindSecret_absent_is_no_error name st r w :
  Keysets_Get (namespace c) (NamePrefix +:+ name) (world st) = (r, w) ->
  ((exists err, r = inr err /\ IsNotFound err = true) \/
   (exists keyset, r = inl keyset /\ FindPrimary keyset = None) ->
   FindSecret c name st = (Done (None, None), record st w (EvLoad c name r)) /\
   Secret c name st
   = (Done (None, Some (Errorf "Secret not found: %q" [ArgString name])),
      record st w (EvLoad c name r)))
  /\
  (forall s err st',
      FindSecret c name st = (Done (s, Some err), st') ->
      exists cause, r = inr cause /\ IsNotFound cause = false).
Proof.
  intros Hget. split.
  - intros Habsent.
    assert (Hfind : FindSecret c name st
                    = (Done (None, None), record st w (EvLoad c name r))).
    { rewrite FindSecret_loadSecret.
      destruct Habsent as [(err & -> & Hnf) | (keyset & -> & Hp)].
      - now apply loadSecret_not_found.
      - rewrite (loadSecret_found _ _ _ _ _ Hget). unfold parseSecret.
        now rewrite Hp. }
    split; [exact Hfind |].
    unfold Secret. now rewrite (bind_Done _ _ _ _ _ Hfind).
  - intros s err st' Hfind. rewrite FindSecret_loadSecret in Hfind.
    destruct r as [keyset | cause].
    + rewrite (loadSecret_found _ _ _ _ _ Hget) in Hfind. unfold parseSecret in Hfind.
      destruct (FindPrimary keyset); discriminate.
    + destruct (IsNotFound cause) eqn:Hnf; [| now exists cause].
      rewrite (loadSecret_not_found _ _ _ _ _ Hget Hnf) in Hfind. discriminate.
Qed.

(** C10.  Secret returns either a secret and no error, or no secret and
    an error; never neither, and it never ends the process. *)
Theorem Secret_value_or_error name st :
  exists st',
    (exists s, Secret c name st = (Done (Some s, None), st')) \/
    (exists err, Secret c name st = (Done (None, Some err), st')).
Proof.
  destruct (loadSecret_loaded c name st) as (a & st' & Hload & Hcase).
  rewrite <- FindSecret_loadSecret in Hload.
  exists st'. unfold Secret. rewrite (bind_Done _ _ _ _ _ Hload).
  destruct Hcase; [left | right | right]; eexists; reflexivity.
Qed.

Lemma ListSecrets_fold items acc :
  fold_left ListSecrets_step items acc
  = acc ++ List.map (fun keyset => TrimPrefix (kops.Name keyset) NamePrefix)
                    (List.filter is_plain_secret items).
Proof.
  revert acc. induction items as [|keyset items IH]; intros acc; simpl.
  - now rewrite app_nil_r.
  - rewrite IH. unfold ListSecrets_step, is_plain_secret.
    destruct (kops.Type_ (kops.Spec keyset)); simpl; try reflexivity.
    now rewrite <- app_assoc.
Qed.

Lemma ListSecrets_run st items w :
  Keysets_List (namespace c) (world st) = (inl items, w) ->
  ListSecrets c st
  = (Done (List.map (fun keyset => TrimPrefix (kops.Name keyset) NamePrefix)
                    (List.filter is_plain_secret items), None),
     record st w (EvList (namespace c) (inl items))).
Proof.
  intros Hlist. unfold ListSecrets, List_.
  rewrite (bind_Done _ _ _ _ _ (call_eq _ _ _ _ _ Hlist)).
  now rewrite ListSecrets_fold.
Qed.

(** C5.  When the store lists [items], ListSecrets returns, in the
    store's order, the name with the "token-" prefix trimmed of each
    record whose type is the plain-secret type, and nothing for a record
    of any other type. *)
Theorem ListSecrets_plain_secrets_only st items w :
  Keysets_List (namespace c) (world st) = (inl items, w) ->
  exists names,
    ListSecrets c st
    = (Done (names, None), record st w (EvList (namespace c) (inl items))) /\
    names = List.map (fun keyset => TrimPrefix (kops.Name keyset) "token-")
                     (List.filter is_plain_secret items) /\
    (forall n, In n names <->
               exists keyset, In keyset items /\
                              kops.Type_ (kops.Spec keyset) = kops.SecretTypeSecret /\
                              n = TrimPrefix (kops.Name keyset) "token-").
Proof.
  intros Hlist. eexists. split; [| split; [reflexivity |]].
  - now apply ListSecrets_run.
  - intros n. rewrite in_map_iff. split.
    + intros (keyset & <- & Hin). apply filter_In in Hin as [Hin Htype].
      exists keyset. repeat split; [exact Hin |].
      unfold is_plain_secret in Htype.
      now destruct (kops.Type_ (kops.Spec keyset)).
    + intros (keyset & Hin & Htype & ->). exists keyset. split; [reflexivity |].
      apply filter_In. split; [exact Hin |].
      unfold is_plain_secret. now rewrite Htype.
Qed.

(** C8.  createSecret reads the clock, turns the nanosecond timestamp
    into a serial, builds the record named "token-" + name, of the
    plain-secret type, with the single entry whose ID is the decimal
    serial and whose payload is the secret's, and submits that record
    with one Create call, whose answer it returns. *)
Theorem createSecret_submits_one_entry_record s name st t w1 id w2 r w3 :
  let keyset :=
    {| kops.Name := "token-" +:+ name;
       kops.Spec := {| kops.Type_ := kops.SecretTypeSecret;
                       kops.Keys := [ {| kops.Id := BigInt_String id;
                                         kops.PrivateMaterial := fi.Data s |} ] |} |} in
  UnixNano (world st) = (t, w1) ->
  BuildPKISerial t w1 = (id, w2) ->
  Keysets_Create (namespace c) keyset w2 = (r, w3) ->
  createSecret c s name st
  = (Done (of_result r),
     MkState w3 (trace st ++ [EvCreate (namespace c) keyset r])).
Proof.
  intros keyset Hnow Hserial Hcreate. unfold createSecret, Create.
  rewrite (bind_Done _ _ _ _ _ (lift_eq _ _ _ _ Hnow)).
  rewrite (bind_Done _ _ (MkState w1 (trace st)) _ _ (lift_eq _ _ _ _ Hserial)).
  now rewrite (bind_Done _ _ (MkState w2 (trace st)) _ _ (call_eq _ _ _ _ _ Hcreate)).
Qed.

End AccessorClaims.

(** ** GetOrCreateSecret, against any implementation of the store *)

Section GetOrCreate.
Context {W : Type} `{KI : KopsInterface W} `{PK : Packages W}.
Variable c : ClientsetSecretStore.

Lemma count_events_app p (l1 l2 : list Event) :
  count_events p (l1 ++ l2) = (count_events p l1 + count_events p l2)%nat.
Proof. unfold count_events. now rewrite List.filter_app, List.length_app. Qed.

Lemma loadSecret_inv name st out st' :
  loadSecret c name st = (out, st') ->
  exists a, out = Done a /\ loaded c name st a st'.
Proof.
  intros Hrun. destruct (loadSecret_loaded c name st) as (a & st'' & Hload & Hcase).
  rewrite Hload in Hrun. inversion Hrun; subst. eauto.
Qed.

Lemma loaded_calls name st a st' :
  loaded c name st a st' -> exists r, calls_between st st' [EvLoad c name r].
Proof. intros []; eexists; apply calls_between_record. Qed.

Lemma createSecret_run s name st t w1 id w2 r w3 :
  UnixNano (world st) = (t, w1) ->
  BuildPKISerial t w1 = (id, w2) ->
  Keysets_Create (namespace c) (newKeyset s name id) w2 = (r, w3) ->
  createSecret c s name st
  = (Done (of_result r),
     MkState w3 (trace st ++ [EvCreate (namespace c) (newKeyset s name id) r])).
Proof.
  intros Hnow Hserial Hcreate. unfold createSecret, Create.
  rewrite (bind_Done _ _ _ _ _ (lift_eq _ _ _ _ Hnow)).
  rewrite (bind_Done _ _ (MkState w1 (trace st)) _ _ (lift_eq _ _ _ _ Hserial)).
  now rewrite (bind_Done _ _ (MkState w2 (trace st)) _ _ (call_eq _ _ _ _ _ Hcreate)).
Qed.

Lemma createSecret_inv s name st out st' :
  createSecret c s name st = (out, st') ->
  exists t w1 id w2 r w3,
    UnixNano (world st) = (t, w1) /\
    BuildPKISerial t w1 = (id, w2) /\
    Keysets_Create (namespace c) (newKeyset s name id) w2 = (r, w3) /\
    out = Done (of_result r) /\
    st' = MkState w3 (trace st ++ [EvCreate (namespace c) (newKeyset s name id) r]).
Proof.
  intros Hrun.
  destruct (UnixNano (world st)) as [t w1] eqn:Hnow.
  destruct (BuildPKISerial t w1) as [id w2] eqn:Hserial.
  destruct (Keysets_Create (namespace c) (newKeyset s name id) w2) as [r w3] eqn:Hcreate.
  rewrite (createSecret_run _ _ _ _ _ _ _ _ _ Hnow Hserial Hcreate) in Hrun.
  inversion Hrun; subst. exists t, w1, id, w2, r, w3. repeat split; assumption.
Qed.

Lemma createSecret_calls s name st out st' :
  createSecret c s name st = (out, st') ->
  exists keyset r, calls_between st st' [EvCreate (namespace c) keyset r].
Proof.
  intros Hrun. apply createSecret_inv in Hrun
    as (t & w1 & id & w2 & r & w3 & _ & _ & _ & _ & ->).
  now do 2 eexists.
Qed.

(** *** One pass of the loop *)

Lemma pass_body name secret i st step st' :
  pass c name secret i st step st' ->
  GetOrCreateSecret_body c name secret i st = (Done step, st').
Proof.
  intros Hpass. unfold GetOrCreateSecret_body.
  destruct Hpass as [s err st1 Hfind | s st1 Hfind | st1 k st2 Hfind Hcreate
                    | st1 k err st2 Hfind Hcreate Hexists Hi
                    | st1 k err st2 Hfind Hcreate Hwhy];
    rewrite (bind_Done _ _ _ _ _ Hfind); try reflexivity;
    rewrite (bind_Done _ _ _ _ _ Hcreate); try reflexivity.
  - subst i. now rewrite Hexists.
  - destruct Hwhy as [Hno | Hi].
    + now rewrite Hno.
    + apply Z.eqb_neq in Hi. rewrite Hi. now rewrite andb_false_r.
Qed.

Lemma body_pass name secret i st :
  exists step st',
    GetOrCreateSecret_body c name secret i st = (Done step, st') /\
    pass c name secret i st step st'.
Proof.
  assert (Hgoal : exists step st', pass c name secret i st step st').
  { destruct (loadSecret_loaded c name st) as (a & st1 & Hload & Hcase).
    rewrite <- FindSecret_loadSecret in Hload.
    destruct Hcase.
    - do 2 eexists. eapply pass_found; eassumption.
    - destruct (createSecret c secret name (record st w (EvLoad c name r)))
        as [out st2] eqn:Hcreate.
      destruct (createSecret_inv _ _ _ _ _ Hcreate)
        as (t & w1 & id & w2 & r' & w3 & _ & _ & _ & -> & _).
      destruct r' as [k | err]; simpl in Hcreate.
      + do 2 eexists. eapply pass_created; eassumption.
      + destruct (IsAlreadyExists err) eqn:Hexists.
        * destruct (Z.eq_dec i 0) as [Hi | Hi].
          -- do 2 eexists. eapply pass_conflict; eassumption.
          -- do 2 eexists. eapply pass_create_error; eauto.
        * do 2 eexists. eapply pass_create_error; eauto.
    - do 2 eexists. eapply pass_find_error; eassumption. }
  destruct Hgoal as (step & st' & Hpass).
  exists step, st'. split; [now apply pass_body | exact Hpass].
Qed.

Lemma FindSecret_calls name st out st' :
  FindSecret c name st = (out, st') ->
  exists r, calls_between st st' [EvLoad c name r].
Proof.
  rewrite FindSecret_loadSecret. intros Hrun.
  apply loadSecret_inv in Hrun as (a & _ & Hcase). eapply loaded_calls, Hcase.
Qed.

(** A pass makes one Get call and at most one Create call. *)
Lemma pass_calls name secret i st step st' :
  pass c name secret i st step st' ->
  exists new, calls_between st st' new /\
              (count_events is_create new <= 1)%nat /\
              (count_events is_get new <= 1)%nat.
Proof.
  intros Hpass.
  destruct Hpass as [s err st1 Hfind | s st1 Hfind | st1 k st2 Hfind Hcreate
                    | st1 k err st2 Hfind Hcreate Hexists Hi
                    | st1 k err st2 Hfind Hcreate Hwhy];
    destruct (FindSecret_calls _ _ _ _ Hfind) as (r & Hget);
    try (destruct (createSecret_calls _ _ _ _ _ Hcreate) as (keyset & r' & Hcr);
         pose proof (calls_between_trans _ _ _ _ _ Hget Hcr) as Hall);
    eexists; (split; [eassumption |]); unfold EvLoad; cbn; lia.
Qed.

(** *** After the loop *)

Lemma after_value name st s st' :
  loadSecret c name st = (Done (s, None), st') ->
  GetOrCreateSecret_after c name st = (Done (s, true, None), st').
Proof.
  intros Hload. unfold GetOrCreateSecret_after. now rewrite (bind_Done _ _ _ _ _ Hload).
Qed.

Lemma after_fatal name st s err st' :
  loadSecret c name st = (Done (s, Some err), st') ->
  GetOrCreateSecret_after c name st
  = (Fatal "unable to load secret immmediately after creation %v: %v"
           [ArgString name; ArgError err], st').
Proof.
  intros Hload. unfold GetOrCreateSecret_after. now rewrite (bind_Done _ _ _ _ _ Hload).
Qed.

(** *** The whole function, pass by pass *)

Lemma GetOrCreateSecret_return name secret st r st1 :
  pass c name secret 0 st (Return r) st1 ->
  GetOrCreateSecret c name secret st = (Done r, st1).
Proof.
  intros Hpass. unfold GetOrCreateSecret. simpl for_loop.
  now rewrite (bind_Done _ _ _ _ _ (pass_body _ _ _ _ _ _ Hpass)).
Qed.

Lemma GetOrCreateSecret_break name secret st st1 :
  pass c name secret 0 st Break st1 ->
  GetOrCreateSecret c name secret st = GetOrCreateSecret_after c name st1.
Proof.
  intros Hpass. unfold GetOrCreateSecret. simpl for_loop.
  now rewrite (bind_Done _ _ _ _ _ (pass_body _ _ _ _ _ _ Hpass)).
Qed.

Lemma GetOrCreateSecret_continue_return name secret st st1 r st2 :
  pass c name secret 0 st Continue st1 ->
  pass c name secret 1 st1 (Return r) st2 ->
  GetOrCreateSecret c name secret st = (Done r, st2).
Proof.
  intros Hpass0 Hpass1. unfold GetOrCreateSecret. simpl for_loop.
  rewrite (bind_Done _ _ _ _ _ (pass_body _ _ _ _ _ _ Hpass0)).
  now rewrite (bind_Done _ _ _ _ _ (pass_body _ _ _ _ _ _ Hpass1)).
Qed.

Lemma GetOrCreateSecret_continue_break name secret st st1 st2 :
  pass c name secret 0 st Continue st1 ->
  pass c name secret 1 st1 Break st2 ->
  GetOrCreateSecret c name secret st = GetOrCreateSecret_after c name st2.
Proof.
  intros Hpass0 Hpass1. unfold GetOrCreateSecret. simpl for_loop.
  rewrite (bind_Done _ _ _ _ _ (pass_body _ _ _ _ _ _ Hpass0)).
  now rewrite (bind_Done _ _ _ _ _ (pass_body _ _ _ _ _ _ Hpass1)).
Qed.

(** The second pass never asks for a third. *)
Lemma second_pass_ends name secret st st' :
  ~ pass c name secret 1 st Continue st'.
Proof. intros Hpass. inversion Hpass. discriminate. Qed.

(** Every run is one of four: the first pass returns, the first pass
    creates, the second pass returns, the second pass creates. *)
Lemma GetOrCreateSecret_cases name secret st :
  (exists r st1,
      pass c name secret 0 st (Return r) st1 /\
      GetOrCreateSecret c name secret st = (Done r, st1)) \/
  (exists st1,
      pass c name secret 0 st Break st1 /\
      GetOrCreateSecret c name secret st = GetOrCreateSecret_after c name st1) \/
  (exists st1 r st2,
      pass c name secret 0 st Continue st1 /\
      pass c name secret 1 st1 (Return r) st2 /\
      GetOrCreateSecret c name secret st = (Done r, st2)) \/
  (exists st1 st2,
      pass c name secret 0 st Continue st1 /\
      pass c name secret 1 st1 Break st2 /\
      GetOrCreateSecret c name secret st = GetOrCreateSecret_after c name st2).
Proof.
  destruct (body_pass name secret 0 st) as ([| | r] & st1 & _ & Hpass0).
  - destruct (body_pass name secret 1 st1) as ([| | r] & st2 & _ & Hpass1).
    + now apply second_pass_ends in Hpass1.
    + do 3 right. exists st1, st2. repeat split; try assumption.
      now apply GetOrCreateSecret_continue_break with st1.
    + do 2 right. left. exists st1, r, st2. repeat split; try assumption.
      now apply GetOrCreateSecret_continue_return with st1.
  - right. left. exists st1. split; [assumption |].
    now apply GetOrCreateSecret_break.
  - left. exists r, st1. split; [assumption |].
    now apply GetOrCreateSecret_return.
Qed.

Lemma pass_created_inv name secret i st st' :
  pass c name secret i st Break st' ->
  exists st1 k,
    FindSecret c name st = (Done (None, None), st1) /\
    createSecret c secret name st1 = (Done (k, None), st').
Proof. intros Hpass. inversion Hpass; subst. eauto. Qed.

Lemma pass_conflict_inv name secret i st st' :
  pass c name secret i st Continue st' ->
  exists st1 k err,
    FindSecret c name st = (Done (None, None), st1) /\
    createSecret c secret name st1 = (Done (k, Some err), st') /\
    IsAlreadyExists err = true /\ i = 0.
Proof. intros Hpass. inversion Hpass; subst. eauto 10. Qed.

(** Once a create attempt has succeeded, what remains of the run is the
    re-read. *)
Lemma GetOrCreateSecret_after_create name secret st st' :
  create_succeeded c name secret st st' ->
  GetOrCreateSecret c name secret st = GetOrCreateSecret_after c name st'.
Proof.
  intros [st1 k st2 Hfind Hcreate
         | st1 k err st2 st3 k' st4 Hfind Hcreate Hexists Hfind' Hcreate'].
  - apply GetOrCreateSecret_break. eapply pass_created; eassumption.
  - apply GetOrCreateSecret_continue_break with st2.
    + eapply pass_conflict; eauto.
    + eapply pass_created; eassumption.
Qed.

Lemma after_inv name st out st' :
  GetOrCreateSecret_after c name st = (out, st') ->
  exists s err,
    loadSecret c name st = (Done (s, err), st') /\
    match err with
    | None => out = Done (s, true, None)
    | Some err =>
        out = Fatal "unable to load secret immmediately after creation %v: %v"
                    [ArgString name; ArgError err]
    end.
Proof.
  intros Hrun.
  destruct (loadSecret_loaded c name st) as ([s [err|]] & st1 & Hload & _).
  - rewrite (after_fatal _ _ _ _ _ Hload) in Hrun. inversion Hrun; subst.
    exists s, (Some err). now split.
  - rewrite (after_value _ _ _ _ Hload) in Hrun. inversion Hrun; subst.
    exists s, None. now split.
Qed.

(** A run that reports created = true went through a successful create. *)
Lemma created_flag_inv name secret st s err st' :
  GetOrCreateSecret c name secret st = (Done (s, true, err), st') ->
  exists st2,
    create_succeeded c name secret st st2 /\
    loadSecret c name st2 = (Done (s, None), st') /\ err = None.
Proof.
  intros Hrun.
  destruct (GetOrCreateSecret_cases name secret st)
    as [(r & st1 & Hpass & Heq) | [(st1 & Hpass & Heq)
       | [(st1 & r & st2 & Hpass0 & Hpass1 & Heq)
         | (st1 & st2 & Hpass0 & Hpass1 & Heq)]]];
    rewrite Heq in Hrun.
  - inversion Hrun; subst. inversion Hpass.
  - apply after_inv in Hrun as (s' & [e|] & Hload & Hout); inversion Hout; subst.
    apply pass_created_inv in Hpass as (st0 & k & Hfind & Hcreate).
    exists st1. repeat split; try assumption.
    eapply created_at_first_attempt; eassumption.
  - inversion Hrun; subst. inversion Hpass1.
  - apply after_inv in Hrun as (s' & [e|] & Hload & Hout); inversion Hout; subst.
    apply pass_conflict_inv in Hpass0 as (sta & k & e & Hfind & Hcreate & Hexists & _).
    apply pass_created_inv in Hpass1 as (stb & k' & Hfind' & Hcreate').
    exists st2. repeat split; try assumption.
    eapply created_at_second_attempt; eassumption.
Qed.

(** Whatever secret a run returns was the answer of a loadSecret that
    ended in the final state; the candidate itself is never returned. *)
Lemma GetOrCreateSecret_value_is_read name secret st s created err st' :
  GetOrCreateSecret c name secret st = (Done (Some s, created, err), st') ->
  exists st0, loadSecret c name st0 = (Done (Some s, None), st').
Proof.
  intros Hrun.
  assert (Hret : forall i sta stb,
             pass c name secret i sta (Return (Some s, created, err)) stb ->
             loadSecret c name sta = (Done (Some s, None), stb)).
  { intros i sta stb Hpass. inversion Hpass; subst.
    now rewrite <- FindSecret_loadSecret. }
  destruct (GetOrCreateSecret_cases name secret st)
    as [(r & st1 & Hpass & Heq) | [(st1 & Hpass & Heq)
       | [(st1 & r & st2 & Hpass0 & Hpass1 & Heq)
         | (st1 & st2 & Hpass0 & Hpass1 & Heq)]]];
    rewrite Heq in Hrun.
  - inversion Hrun; subst. eauto.
  - apply after_inv in Hrun as (s' & [e|] & Hload & Hout); inversion Hout; subst. eauto.
  - inversion Hrun; subst. eauto.
  - apply after_inv in Hrun as (s' & [e|] & Hload & Hout); inversion Hout; subst. eauto.
Qed.

Lemma after_calls name st out st' :
  GetOrCreateSecret_after c name st = (out, st') ->
  exists r, calls_between st st' [EvLoad c name r].
Proof.
  intros Hrun. apply after_inv in Hrun as (s & err & Hload & _).
  apply loadSecret_inv in Hload as (a & _ & Hcase). eapply loaded_calls, Hcase.
Qed.

(** No run makes more than two Create calls or more than three Get calls. *)
Lemma GetOrCreateSecret_call_bound name secret st out st' :
  GetOrCreateSecret c name secret st = (out, st') ->
  exists new, calls_between st st' new /\
              (count_events is_create new <= 2)%nat /\
              (count_events is_get new <= 3)%nat.
Proof.
  intros Hrun.
  destruct (GetOrCreateSecret_cases name secret st)
    as [(r & st1 & Hpass & Heq) | [(st1 & Hpass & Heq)
       | [(st1 & r & st2 & Hpass0 & Hpass1 & Heq)
         | (st1 & st2 & Hpass0 & Hpass1 & Heq)]]];
    rewrite Heq in Hrun.
  - inversion Hrun; subst.
    destruct (pass_calls _ _ _ _ _ _ Hpass) as (new & Hnew & Hc & Hg).
    exists new. repeat split; [assumption | lia | lia].
  - destruct (pass_calls _ _ _ _ _ _ Hpass) as (new & Hnew & Hc & Hg).
    destruct (after_calls _ _ _ _ Hrun) as (r & Hlast).
    exists (new ++ [EvLoad c name r]).
    split; [eapply calls_between_trans; eassumption |].
    rewrite !count_events_app. unfold EvLoad. cbn. lia.
  - inversion Hrun; subst.
    destruct (pass_calls _ _ _ _ _ _ Hpass0) as (new0 & Hnew0 & Hc0 & Hg0).
    destruct (pass_calls _ _ _ _ _ _ Hpass1) as (new1 & Hnew1 & Hc1 & Hg1).
    exists (new0 ++ new1).
    split; [eapply calls_between_trans; eassumption |].
    rewrite !count_events_app. lia.
  - destruct (pass_calls _ _ _ _ _ _ Hpass0) as (new0 & Hnew0 & Hc0 & Hg0).
    destruct (pass_calls _ _ _ _ _ _ Hpass1) as (new1 & Hnew1 & Hc1 & Hg1).
    destruct (after_calls _ _ _ _ Hrun) as (r & Hlast).
    exists ((new0 ++ new1) ++ [EvLoad c name r]).
    split; [eapply calls_between_trans; [eapply calls_between_trans |]; eassumption |].
    rewrite !count_events_app. unfold EvLoad. cbn. lia.
Qed.

(** What loadSecret and createSecret preserve, every run preserves. *)
Lemma GetOrCreateSecret_preserves (P : State W -> Prop) name secret :
  (forall st out st', loadSecret c name st = (out, st') -> P st -> P st') ->
  (forall st out st', createSecret c secret name st = (out, st') -> P st -> P st') ->
  forall st out st',
    GetOrCreateSecret c name secret st = (out, st') -> P st -> P st'.
Proof.
  intros Hload Hcreate.
  assert (Hpass : forall i st step st',
             pass c name secret i st step st' -> P st -> P st').
  { intros i st step st' Hp HP.
    destruct Hp as [s err st1 Hfind | s st1 Hfind | st1 k st2 Hfind Hcr
                   | st1 k err st2 Hfind Hcr Hexists Hi
                   | st1 k err st2 Hfind Hcr Hwhy];
      rewrite FindSecret_loadSecret in Hfind; eauto. }
  assert (Hafter : forall st out st',
             GetOrCreateSecret_after c name st = (out, st') -> P st -> P st').
  { intros st out st' Hrun HP.
    apply after_inv in Hrun as (s & err & Hl & _). eauto. }
  intros st out st' Hrun HP.
  destruct (GetOrCreateSecret_cases name secret st)
    as [(r & st1 & Hp & Heq) | [(st1 & Hp & Heq)
       | [(st1 & r & st2 & Hp0 & Hp1 & Heq)
         | (st1 & st2 & Hp0 & Hp1 & Heq)]]];
    rewrite Heq in Hrun.
  - inversion Hrun; subst. eauto.
  - eauto.
  - inversion Hrun; subst. eauto.
  - eauto.
Qed.

(** The fast path: the first Get finds a record with a primary entry. *)
Lemma GetOrCreateSecret_fast_path name candidate st keyset primary w :
  Keysets_Get (namespace c) (NamePrefix +:+ name) (world st) = (inl keyset, w) ->
  FindPrimary keyset = Some primary ->
  GetOrCreateSecret c name candidate st
  = (Done (Some {| fi.Data := kops.PrivateMaterial primary |}, false, None),
     record st w (EvLoad c name (inl keyset))).
Proof.
  intros Hget Hprimary. apply GetOrCreateSecret_return.
  eapply pass_found. rewrite FindSecret_loadSecret.
  rewrite (loadSecret_found _ _ _ _ _ Hget). unfold parseSecret. now rewrite Hprimary.
Qed.

(** C1.  When the first pass finds no secret and its create attempt
    fails with an already-exists conflict, GetOrCreateSecret starts over
    from the load step in the state the conflict left, once: an error of
    that second load is returned; a secret found by it is returned with
    created = false; if it finds none, an error of the second create
    attempt, a second already-exists conflict included, is returned as it
    is, and a successful second create leads to the re-read.  No run makes
    more than two Create calls or more than three Get calls. *)
Theorem GetOrCreateSecret_retries_once name secret st st1 k err st2 :
  FindSecret c name st = (Done (None, None), st1) ->
  createSecret c secret name st1 = (Done (k, Some err), st2) ->
  IsAlreadyExists err = true ->
  (forall s err' st3,
      FindSecret c name st2 = (Done (s, Some err'), st3) ->
      GetOrCreateSecret c name secret st = (Done (None, false, Some err'), st3)) /\
  (forall s st3,
      FindSecret c name st2 = (Done (Some s, None), st3) ->
      GetOrCreateSecret c name secret st = (Done (Some s, false, None), st3)) /\
  (forall st3 k' err' st4,
      FindSecret c name st2 = (Done (None, None), st3) ->
      createSecret c secret name st3 = (Done (k', Some err'), st4) ->
      GetOrCreateSecret c name secret st = (Done (None, false, Some err'), st4)) /\
  (forall st3 k' st4,
      FindSecret c name st2 = (Done (None, None), st3) ->
      createSecret c secret name st3 = (Done (k', None), st4) ->
      GetOrCreateSecret c name secret st = GetOrCreateSecret_after c name st4) /\
  (forall out st',
      GetOrCreateSecret c name secret st = (out, st') ->
      exists new, calls_between st st' new /\
                  (count_events is_create new <= 2)%nat /\
                  (count_events is_get new <= 3)%nat).
Proof.
  intros Hfind Hcreate Hexists.
  assert (Hpass0 : pass c name secret 0 st Continue st2)
    by (eapply pass_conflict; eauto).
  repeat split.
  - intros s err' st3 Hfind'.
    apply GetOrCreateSecret_continue_return with st2; [assumption |].
    eapply pass_find_error; eassumption.
  - intros s st3 Hfind'.
    apply GetOrCreateSecret_continue_return with st2; [assumption |].
    eapply pass_found; eassumption.
  - intros st3 k' err' st4 Hfind' Hcreate'.
    apply GetOrCreateSecret_continue_return with st2; [assumption |].
    eapply pass_create_error; [eassumption .. | right; discriminate].
  - intros st3 k' st4 Hfind' Hcreate'.
    apply GetOrCreateSecret_continue_break with st2; [assumption |].
    eapply pass_created; eassumption.
  - intros out st'. apply GetOrCreateSecret_call_bound.
Qed.

(** C9.  When a create attempt has succeeded and the re-read then finds
    no record (the Get fails with not-found) or a record without a
    primary entry, GetOrCreateSecret returns no secret, created = true
    and no error. *)
Theorem GetOrCreateSecret_nil_secret_created name secret st st2 r w :
  create_succeeded c name secret st st2 ->
  Keysets_Get (namespace c) (NamePrefix +:+ name) (world st2) = (r, w) ->
  (exists err, r = inr err /\ IsNotFound err = true) \/
  (exists keyset, r = inl keyset /\ FindPrimary keyset = None) ->
  GetOrCreateSecret c name secret st
  = (Done (None, true, None), record st2 w (EvLoad c name r)).
Proof.
  intros Hcreated Hget Habsent.
  rewrite (GetOrCreateSecret_after_create _ _ _ _ Hcreated).
  apply after_value.
  destruct Habsent as [(err & -> & Hnf) | (keyset & -> & Hp)].
  - now apply loadSecret_not_found.
  - rewrite (loadSecret_found _ _ _ _ _ Hget). unfold parseSecret. now rewrite Hp.
Qed.

End GetOrCreate.

(** ** The in-memory server *)

Section InMemory.
Import Mem.
Context {rule : PrimaryRule}.
Variable c : ClientsetSecretStore.

#[local] Abbreviation key := (secretKey c).

Lemma interleave_quiet w : others w = [] -> interleave w = w.
Proof. intros Hq. unfold interleave. now rewrite Hq. Qed.

(** Get answers with the record stored once the other clients moved. *)
Lemma get_stored ns name w r w' :
  get ns name w = (r, w') ->
  w' = interleave w /\
  match r with
  | inl keyset => keysets w' !! (ns, name) = Some keyset
  | inr err => keysets w' !! (ns, name) = None /\ IsNotFound err = true
  end.
Proof.
  unfold get. destruct (keysets (interleave w) !! (ns, name)) eqn:Hlook;
    intros Heq; inversion Heq; subst; auto.
Qed.

Lemma create_stored ns keyset w r w' :
  create ns keyset w = (r, w') ->
  others w' = others (interleave w) /\
  clock w' = clock (interleave w) /\
  match r with
  | inl k =>
      k = keyset /\ keysets (interleave w) !! (ns, kops.Name keyset) = None /\
      keysets w' = <[(ns, kops.Name keyset) := keyset]> (keysets (interleave w))
  | inr err =>
      IsAlreadyExists err = true /\ w' = interleave w /\
      is_Some (keysets w' !! (ns, kops.Name keyset))
  end.
Proof.
  unfold create. destruct (keysets (interleave w) !! (ns, kops.Name keyset)) eqn:Hlook;
    intros Heq; inversion Heq; subst; simpl; auto.
Qed.

(** A secret that loadSecret returns is the primary of the record the
    store holds when it returns. *)
Lemma loadSecret_reads_store name st s err st' :
  loadSecret c name st = (Done (Some s, err), st') ->
  exists keyset primary,
    keysets (world st') !! key name = Some keyset /\
    findPrimary keyset = Some primary /\
    s = {| fi.Data := kops.PrivateMaterial primary |}.
Proof.
  intros Hload. apply loadSecret_inv in Hload as (a & Ha & Hcase).
  inversion Ha; subst a; clear Ha. inversion Hcase; subst.
  match goal with H : Keysets_Get _ _ _ = _ |- _ =>
    apply get_stored in H as (_ & Hlook) end.
  eauto.
Qed.

Lemma loadSecret_quiet name st out st' :
  loadSecret c name st = (out, st') -> quiet st ->
  world st' = world st.
Proof.
  intros Hload Hq. apply loadSecret_inv in Hload as (a & _ & Hcase).
  destruct Hcase;
    match goal with H : Keysets_Get _ _ _ = _ |- _ =>
      apply get_stored in H as (-> & _) end;
    now apply interleave_quiet.
Qed.

Lemma loadSecret_keeps_quiet name st out st' :
  loadSecret c name st = (out, st') -> quiet st -> quiet st'.
Proof.
  intros Hload Hq. unfold quiet. now rewrite (loadSecret_quiet _ _ _ _ Hload Hq).
Qed.

(** Without other clients, loadSecret answers from the stored record. *)
Lemma loadSecret_quiet_answer name st :
  quiet st ->
  fst (loadSecret c name st)
  = Done match keysets (world st) !! key name with
         | Some keyset => parseSecret keyset
         | None => (None, None)
         end.
Proof.
  intros Hq.
  destruct (Keysets_Get (namespace c) (NamePrefix +:+ name) (world st))
    as [[keyset|err] w] eqn:Hget.
  - rewrite (loadSecret_found _ _ _ _ _ Hget).
    apply get_stored in Hget as (-> & Hlook).
    rewrite (interleave_quiet _ Hq) in Hlook. unfold secretKey. now rewrite Hlook.
  - pose proof Hget as Hget'. apply get_stored in Hget' as (-> & Hlook & Hnf).
    rewrite (loadSecret_not_found _ _ _ _ _ Hget Hnf).
    rewrite (interleave_quiet _ Hq) in Hlook. unfold secretKey. now rewrite Hlook.
Qed.

Lemma createSecret_keeps_quiet s name st out st' :
  createSecret c s name st = (out, st') -> quiet st -> quiet st'.
Proof.
  intros Hrun Hq. apply createSecret_inv in Hrun
    as (t & w1 & id & w2 & r & w3 & Hnow & Hserial & Hcreate & _ & ->).
  inversion Hnow; subst. inversion Hserial; subst.
  apply create_stored in Hcreate as (Hothers & _).
  unfold quiet in *. simpl in *. rewrite Hothers.
  now rewrite interleave_quiet.
Qed.

(** Without other clients, a successful createSecret leaves the record it
    built in the store, under the prefixed name. *)
Lemma createSecret_quiet_stored s name st k st' :
  createSecret c s name st = (Done (k, None), st') -> quiet st ->
  exists id keyset,
    k = Some keyset /\ keyset = newKeyset s name id /\
    keysets (world st) !! key name = None /\
    keysets (world st') = <[key name := keyset]> (keysets (world st)) /\
    calls_between st st' [EvCreate (namespace c) keyset (inl keyset)].
Proof.
  intros Hrun Hq. apply createSecret_inv in Hrun
    as (t & w1 & id & w2 & r & w3 & Hnow & Hserial & Hcreate & Hout & ->).
  inversion Hnow; subst. inversion Hserial; subst. clear Hnow Hserial.
  destruct r as [k' | err]; inversion Hout; subst.
  apply create_stored in Hcreate as (_ & _ & -> & Hnone & Hks).
  rewrite interleave_quiet in Hnone, Hks by exact Hq.
  exists (clock (world st)), (newKeyset s name (clock (world st))).
  repeat split; assumption.
Qed.

Lemma GetOrCreateSecret_keeps_quiet name secret st out st' :
  GetOrCreateSecret c name secret st = (out, st') -> quiet st -> quiet st'.
Proof.
  apply GetOrCreateSecret_preserves with (P := quiet).
  - apply loadSecret_keeps_quiet.
  - apply createSecret_keeps_quiet.
Qed.

(** Whatever the other clients do, the secret GetOrCreateSecret returns
    is the primary of the record the store holds when it returns. *)
Lemma GetOrCreateSecret_returns_stored name secret st s created err st' :
  GetOrCreateSecret c name secret st = (Done (Some s, created, err), st') ->
  exists keyset primary,
    keysets (world st') !! key name = Some keyset /\
    findPrimary keyset = Some primary /\
    s = {| fi.Data := kops.PrivateMaterial primary |}.
Proof.
  intros Hrun. apply GetOrCreateSecret_value_is_read in Hrun as (st0 & Hload).
  eapply loadSecret_reads_store, Hload.
Qed.

(** List answers with the records of the namespace. *)
Lemma list_stored ns w keyset name :
  others w = [] ->
  keysets w !! (ns, name) = Some keyset ->
  exists items, list_ ns w = (inl items, w) /\ In keyset items.
Proof.
  intros Hq Hlook. eexists. split.
  - unfold list_. rewrite (interleave_quiet _ Hq). reflexivity.
  - apply in_map_iff. exists ((ns, name), keyset). split; [reflexivity |].
    apply filter_In. split.
    + apply list_elem_of_In. now apply elem_of_map_to_list.
    + unfold in_namespace. simpl. apply String.eqb_refl.
Qed.

(** DeleteKeysetItem touches no record but the one it names. *)
Lemma deleteKeysetItem_frame ns name t id w r w' :
  others w = [] ->
  deleteKeysetItem ns name t id w = (r, w') ->
  others w' = [] /\
  forall k, k <> (ns, name) -> keysets w' !! k = keysets w !! k.
Proof.
  intros Hq. unfold deleteKeysetItem. rewrite (interleave_quiet _ Hq).
  destruct (keysets w !! (ns, name)) as [keyset|].
  - destruct (existsb (has_id id) (kops.Keys (kops.Spec keyset)));
      intros Heq; inversion Heq; subst; simpl; split; auto.
    intros k Hk. now apply lookup_insert_ne.
  - intros Heq; inversion Heq; subst. auto.
Qed.

End InMemory.

(** ** The claims that need the in-memory server *)

Section InMemoryClaims.
Import Mem.

(** C2.  Against any store: when the Get of the first pass answers with
    a record that has a primary entry, GetOrCreateSecret returns that
    entry's payload with created = false, and the Get is the only store
    call it makes.  On the in-memory server without other clients: when
    GetOrCreateSecret(name, A) returned a secret, GetOrCreateSecret(name,
    B) right after returns the same secret with created = false, after a
    single Get; and if the first call reported created = true, that
    secret is A (for a primary rule that selects entries of the record). *)
Theorem GetOrCreateSecret_existing_record :
  (forall (W : Type) (KI : KopsInterface W) (PK : Packages W)
          (c : ClientsetSecretStore) name candidate (st : State W) keyset primary w,
      Keysets_Get (namespace c) ("token-" +:+ name) (world st) = (inl keyset, w) ->
      FindPrimary keyset = Some primary ->
      GetOrCreateSecret c name candidate st
      = (Done (Some {| fi.Data := kops.PrivateMaterial primary |}, false, None),
         MkState w (trace st ++ [EvGet (namespace c) ("token-" +:+ name) (inl keyset)])))
  /\
  (forall (rule : PrimaryRule) (c : ClientsetSecretStore) name A B st s1 created st1,
      quiet st ->
      GetOrCreateSecret c name A st = (Done (Some s1, created, None), st1) ->
      (exists keyset,
          GetOrCreateSecret c name B st1
          = (Done (Some s1, false, None),
             MkState (world st1)
                     (trace st1 ++ [EvGet (namespace c) ("token-" +:+ name) (inl keyset)])))
      /\
      (created = true ->
       (forall k p, findPrimary k = Some p -> In p (kops.Keys (kops.Spec k))) ->
       s1 = A)).
Proof.
  split.
  - intros W KI PK c name candidate st keyset primary w Hget Hprimary.
    now apply GetOrCreateSecret_fast_path.
  - intros rule c name A B st s1 created st1 Hq Hrun.
    pose proof (GetOrCreateSecret_keeps_quiet _ _ _ _ _ _ Hrun Hq) as Hq1.
    split.
    + destruct (GetOrCreateSecret_returns_stored _ _ _ _ _ _ _ _ Hrun)
        as (keyset & primary & Hlook & Hprimary & ->).
      exists keyset.
      apply (GetOrCreateSecret_fast_path c name B st1 keyset primary (world st1));
        [| exact Hprimary].
      simpl. unfold get. rewrite (interleave_quiet _ Hq1).
      unfold secretKey in Hlook. now rewrite Hlook.
    + intros -> Hmember.
      apply created_flag_inv in Hrun as (st2 & Hcreated & Hload & _).
      assert (Hstored : quiet st2 /\
                        exists id, keysets (world st2) !! secretKey c name
                                   = Some (newKeyset A name id)).
      { assert (Hfind_quiet : forall sta a stb,
                   FindSecret c name sta = (a, stb) -> quiet sta -> quiet stb).
        { intros sta a stb Hf. rewrite FindSecret_loadSecret in Hf.
          eapply loadSecret_keeps_quiet, Hf. }
        assert (Hlast : forall sta k stb,
                   quiet sta ->
                   createSecret c A name sta = (Done (k, None), stb) ->
                   quiet stb /\
                   exists id, keysets (world stb) !! secretKey c name
                              = Some (newKeyset A name id)).
        { intros sta k stb Hqa Hcr. split.
          - eapply createSecret_keeps_quiet; eassumption.
          - destruct (createSecret_quiet_stored _ _ _ _ _ _ Hcr Hqa)
              as (id & keyset & _ & -> & _ & Hks & _).
            exists id. rewrite Hks. apply lookup_insert_eq. }
        destruct Hcreated as [sta k stb Hfind Hcr
                             | sta k err stb stc k' std Hfind Hcr _ Hfind' Hcr'].
        - eapply Hlast; [| eassumption]. eapply Hfind_quiet; eassumption.
        - eapply Hlast; [| eassumption].
          eapply Hfind_quiet; [eassumption |].
          eapply createSecret_keeps_quiet; [eassumption |].
          eapply Hfind_quiet; eassumption. }
      destruct Hstored as (Hq2 & id & Hlook2).
      pose proof (loadSecret_quiet _ _ _ _ _ Hload Hq2) as Hworld.
      destruct (loadSecret_reads_store _ _ _ _ _ _ Hload)
        as (keyset & primary & Hlook & Hprimary & ->).
      rewrite Hworld, Hlook2 in Hlook. inversion Hlook; subst keyset.
      apply Hmember in Hprimary. simpl in Hprimary.
      destruct Hprimary as [<- | []]. simpl. now destruct A.
Qed.

(** C3.  Against any store: once a create attempt has succeeded,
    GetOrCreateSecret re-reads the record with loadSecret from the state
    the create left, and returns what that load answered together with
    created = true (a failing re-read ends the process instead).  On the
    in-memory server, whatever the other clients do in between: a secret
    that GetOrCreateSecret returns is the payload of the primary entry of
    the record the store holds at that moment, whoever wrote it. *)
Theorem GetOrCreateSecret_returns_reread_value :
  (forall (W : Type) (KI : KopsInterface W) (PK : Packages W)
          (c : ClientsetSecretStore) name secret (st st2 : State W) s err st3,
      create_succeeded c name secret st st2 ->
      loadSecret c name st2 = (Done (s, err), st3) ->
      GetOrCreateSecret c name secret st
      = match err with
        | None => (Done (s, true, None), st3)
        | Some err =>
            (Fatal "unable to load secret immmediately after creation %v: %v"
                   [ArgString name; ArgError err], st3)
        end)
  /\
  (forall (rule : PrimaryRule) (c : ClientsetSecretStore) name secret st
          s created err st',
      GetOrCreateSecret c name secret st = (Done (Some s, created, err), st') ->
      exists keyset primary,
        keysets (world st') !! (namespace c, "token-" +:+ name) = Some keyset /\
        findPrimary keyset = Some primary /\
        s = {| fi.Data := kops.PrivateMaterial primary |}).
Proof.
  split.
  - intros W KI PK c name secret st st2 s err st3 Hcreated Hload.
    rewrite (GetOrCreateSecret_after_create _ _ _ _ _ Hcreated).
    destruct err as [err|].
    + now apply after_fatal with s.
    + now apply after_value.
  - intros rule c name secret st s created err st' Hrun.
    eapply GetOrCreateSecret_returns_stored, Hrun.
Qed.

(** C6, as the code has it.  On the in-memory server without other
    clients, for every name X: a successful createSecret makes one Create
    call, for a record named "token-" + X, which the store then holds
    under that name; loadSecret for X asks for exactly that name and gets
    the record just written; ListSecrets reports the record as X itself,
    since trimming the prefix undoes prepending it. *)
Theorem prefix_round_trip (rule : PrimaryRule) (c : ClientsetSecretStore)
    s X st k st1 :
  quiet st ->
  createSecret c s X st = (Done (Some k, None), st1) ->
  kops.Name k = "token-" +:+ X /\
  calls_between st st1 [EvCreate (namespace c) k (inl k)] /\
  keysets (world st1) !! (namespace c, "token-" +:+ X) = Some k /\
  loadSecret c X st1
  = (Done (parseSecret k),
     MkState (world st1)
             (trace st1 ++ [EvGet (namespace c) ("token-" +:+ X) (inl k)])) /\
  (exists names st2,
      ListSecrets c st1 = (Done (names, None), st2) /\ In X names) /\
  TrimPrefix (kops.Name k) "token-" = X.
Proof.
  intros Hq Hcreate.
  pose proof (createSecret_keeps_quiet _ _ _ _ _ _ Hcreate Hq) as Hq1.
  destruct (createSecret_quiet_stored _ _ _ _ _ _ Hcreate Hq)
    as (id & keyset & Hk & -> & _ & Hks & Hcalls).
  inversion Hk; subst k; clear Hk.
  assert (Hlook : keysets (world st1) !! (namespace c, "token-" +:+ X)
                  = Some (newKeyset s X id)).
  { rewrite Hks. apply lookup_insert_eq. }
  assert (Htrim : TrimPrefix (kops.Name (newKeyset s X id)) "token-" = X).
  { apply (TrimPrefix_app NamePrefix X). }
  repeat split; try assumption.
  - apply (loadSecret_found c X st1 (newKeyset s X id) (world st1)).
    cbn [Keysets_Get clientset]. unfold get.
    rewrite (interleave_quiet _ Hq1).
    change (NamePrefix +:+ X) with ("token-" +:+ X). now rewrite Hlook.
  - destruct (list_stored _ _ _ _ Hq1 Hlook) as (items & Hlist & Hin).
    do 2 eexists. split.
    + apply ListSecrets_run. exact Hlist.
    + apply in_map_iff. exists (newKeyset s X id). split; [exact Htrim |].
      apply filter_In. split; [exact Hin | reflexivity].
Qed.

(** C7, what the code does.  On the in-memory server without other
    clients, DeleteSecret(item) leaves the record "token-" + item.Name
    as it was: FindSecret(item.Name) answers after the deletion what it
    answered before it. *)
Theorem DeleteSecret_misses_prefixed_record (rule : PrimaryRule)
    (c : ClientsetSecretStore) (item : fi.KeystoreItem) ks now :
  fst (bind (DeleteSecret c item) (fun _ => FindSecret c (fi.Name item))
            (start (alone ks now)))
  = fst (FindSecret c (fi.Name item) (start (alone ks now))).
Proof.
  set (st0 := start (alone ks now)).
  assert (Hq0 : quiet st0) by reflexivity.
  destruct (deleteKeysetItem (namespace c) (fi.Name item) kops.SecretTypeKeypair
                             (fi.Id item) (world st0)) as [r w'] eqn:Hdel.
  destruct (deleteKeysetItem_frame _ _ _ _ _ _ _ Hq0 Hdel) as (Hq1 & Hframe).
  unfold DeleteSecret.
  rewrite (bind_Done _ _ _ _ _ (call_eq _ _ _ _ _ Hdel)).
  rewrite !FindSecret_loadSecret.
  rewrite (loadSecret_quiet_answer c (fi.Name item) st0 Hq0).
  rewrite loadSecret_quiet_answer by exact Hq1.
  unfold secretKey. simpl world. rewrite Hframe; [reflexivity |].
  intros Heq. inversion Heq as [Hname]. now apply NamePrefix_app_neq in Hname.
Qed.

End InMemoryClaims.

(** ** The theorems at work on the sample data *)

Section Witnesses.
Import Mem Sample.

(** The other client creates the record before each of our two Create
    calls: the second conflict is returned, after two Create calls. *)
Lemma GetOrCreateSecret_retries_once_witness :
  fst (GetOrCreateSecret store "admin" secretA (start flapping))
  = Done (None, false, Some (StatusError StatusReasonAlreadyExists "token-admin")) /\
  count_events is_create
    (trace (snd (GetOrCreateSecret store "admin" secretA (start flapping)))) = 2%nat.
Proof.
  pose (st := start flapping).
  pose (st1 := snd (FindSecret store "admin" st)).
  pose (st2 := snd (createSecret store secretA "admin" st1)).
  pose (st3 := snd (FindSecret store "admin" st2)).
  pose (st4 := snd (createSecret store secretA "admin" st3)).
  pose (conflict := StatusError StatusReasonAlreadyExists "token-admin").
  destruct (GetOrCreateSecret_retries_once store "admin" secretA st st1 None conflict st2)
    as (_ & _ & Hsecond & _); [vm_compute; reflexivity ..|].
  fold st. rewrite (Hsecond st3 None conflict st4);
    [split; vm_compute; reflexivity | vm_compute; reflexivity ..].
Defined.

(** The other client wins the race: its secret is returned, created = false. *)
Example GetOrCreateSecret_lost_race :
  fst (GetOrCreateSecret store "admin" secretA (start lostRace))
  = Done (Some secretB, false, None).
Proof. vm_compute. reflexivity. Qed.

Lemma GetOrCreateSecret_existing_record_witness :
  fst (GetOrCreateSecret store "admin" secretA (start fresh))
  = Done (Some secretA, true, None) /\
  fst (GetOrCreateSecret store "admin" secretB
         (snd (GetOrCreateSecret store "admin" secretA (start fresh))))
  = Done (Some secretA, false, None).
Proof.
  pose (st1 := snd (GetOrCreateSecret store "admin" secretA (start fresh))).
  assert (Hfirst : GetOrCreateSecret store "admin" secretA (start fresh)
                   = (Done (Some secretA, true, None), st1))
    by (vm_compute; reflexivity).
  split; [now rewrite Hfirst |].
  destruct (proj2 GetOrCreateSecret_existing_record firstEntryRule store "admin"
                  secretA secretB (start fresh) secretA true st1 eq_refl Hfirst)
    as ((keyset & Hsecond) & _).
  fold st1. now rewrite Hsecond.
Defined.

(** The other client replaces our record before the re-read: its secret
    is returned, with created = true, and it is what the store holds. *)
Lemma GetOrCreateSecret_returns_reread_value_witness :
  fst (GetOrCreateSecret store "admin" secretA (start replaced))
  = Done (Some secretB, true, None) /\
  keysets (world (snd (GetOrCreateSecret store "admin" secretA (start replaced))))
    !! ("kops", "token-admin") = Some winner.
Proof.
  split; [| vm_compute; reflexivity].
  pose (st := start replaced).
  pose (st1 := snd (FindSecret store "admin" st)).
  pose (st2 := snd (createSecret store secretA "admin" st1)).
  pose (st3 := snd (loadSecret store "admin" st2)).
  assert (Hcreated : create_succeeded store "admin" secretA st st2).
  { apply created_at_first_attempt
      with (st1 := st1) (k := Some (keyset "token-admin" kops.SecretTypeSecret
                                      [("1500000000000000000", fi.Data secretA)]));
      vm_compute; reflexivity. }
  fold st.
  rewrite (proj1 GetOrCreateSecret_returns_reread_value _ _ _ store "admin" secretA
                 st st2 (Some secretB) None st3 Hcreated);
    [reflexivity | vm_compute; reflexivity].
Defined.

Lemma FindSecret_absent_is_no_error_witness :
  fst (FindSecret store "admin" (start fresh)) = Done (None, None) /\
  fst (Secret store "admin" (start fresh))
  = Done (None, Some (Errorf "Secret not found: %q" [ArgString "admin"])).
Proof.
  assert (Hget : Keysets_Get (namespace store) (NamePrefix +:+ "admin")
                             (world (start fresh))
                 = (inr (StatusError StatusReasonNotFound "token-admin"), fresh))
    by (vm_compute; reflexivity).
  destruct (FindSecret_absent_is_no_error store "admin" (start fresh) _ _ Hget)
    as (Habsent & _).
  destruct Habsent as (Hfind & Hsecret).
  - left. eexists. split; reflexivity.
  - rewrite Hfind, Hsecret. split; reflexivity.
Defined.

Lemma ListSecrets_plain_secrets_only_witness :
  fst (ListSecrets store (start mixed)) = Done (["kube"; "admin"], None).
Proof.
  destruct (ListSecrets_plain_secrets_only store (start mixed)
              [keyset "ca" kops.SecretTypeKeypair [("12", [x32])];
               keyset "token-kube" kops.SecretTypeSecret [("13", [x33])];
               keyset "token-admin" kops.SecretTypeSecret [("11", [x31])]]
              mixed)
    as (names & Hrun & -> & _); [vm_compute; reflexivity |].
  rewrite Hrun. vm_compute. reflexivity.
Defined.

Lemma prefix_round_trip_witness :
  fst (bind (createSecret store secretA "admin") (fun _ => loadSecret store "admin")
            (start fresh))
  = Done (Some secretA, None).
Proof.
  pose (k := keyset "token-admin" kops.SecretTypeSecret
               [("1500000000000000000", fi.Data secretA)]).
  pose (st1 := snd (createSecret store secretA "admin" (start fresh))).
  assert (Hcreate : createSecret store secretA "admin" (start fresh)
                    = (Done (Some k, None), st1)) by (vm_compute; reflexivity).
  destruct (prefix_round_trip firstEntryRule store secretA "admin" (start fresh) k st1
              eq_refl Hcreate) as (_ & _ & _ & Hload & _).
  rewrite (bind_Done _ _ _ _ _ Hcreate), Hload. reflexivity.
Defined.

(** C6, where the claim fails: the name "token-admin" is a name like any
    other; once created, ListSecrets reports it, and it starts with the
    prefix. *)
Lemma prefix_observed_for_prefixed_name :
  exists names st,
    bind (createSecret store secretA "token-admin") (fun _ => ListSecrets store)
         (start fresh)
    = (Done (names, None), st) /\
    exists n, In n names /\ HasPrefix n "token-" = true.
Proof.
  exists ["token-admin"]. eexists. split; [vm_compute; reflexivity |].
  exists "token-admin". split; [now left | reflexivity].
Qed.

(** C7, at a failing input: "token-admin" holds the single entry "11";
    DeleteSecret for the item (admin, 11) fails and FindSecret still
    returns the entry's payload. *)
Example DeleteSecret_keeps_only_entry :
  fst (DeleteSecret store {| fi.Name := "admin"; fi.Id := "11" |} (start mixed))
  = Done (Some (StatusError StatusReasonNotFound "admin")) /\
  fst (bind (DeleteSecret store {| fi.Name := "admin"; fi.Id := "11" |})
            (fun _ => FindSecret store "admin") (start mixed))
  = Done (Some {| fi.Data := [x31] |}, None).
Proof. split; vm_compute; reflexivity. Qed.

Lemma createSecret_submits_one_entry_record_witness :
  fst (createSecret store secretA "admin" (start fresh))
  = Done (Some {| kops.Name := "token-admin";
                  kops.Spec := {| kops.Type_ := kops.SecretTypeSecret;
                                  kops.Keys := [ {| kops.Id := "1500000000000000000";
                                                    kops.PrivateMaterial := fi.Data secretA |} ] |} |},
          None).
Proof.
  pose (w1 := snd (unixNano fresh)).
  pose (w3 := snd (create "kops" (newKeyset secretA "admin" 1500000000000000000) w1)).
  rewrite (createSecret_submits_one_entry_record store secretA "admin" (start fresh)
             1500000000000000000 w1 1500000000000000000 w1
             (inl (newKeyset secretA "admin" 1500000000000000000)) w3);
    [reflexivity | vm_compute; reflexivity ..].
Defined.

(** The other client deletes the record, or replaces it by one without
    entries, between our Create and the re-read: no secret, created = true,
    no error. *)
Lemma GetOrCreateSecret_nil_secret_created_witness :
  fst (GetOrCreateSecret store "admin" secretA (start deleted))
  = Done (None, true, None) /\
  fst (GetOrCreateSecret store "admin" secretA (start emptied))
  = Done (None, true, None).
Proof.
  pose (ours := Some (keyset "token-admin" kops.SecretTypeSecret
                        [("1500000000000000000", fi.Data secretA)])).
  split.
  - pose (st := start deleted).
    pose (st1 := snd (FindSecret store "admin" st)).
    pose (st2 := snd (createSecret store secretA "admin" st1)).
    assert (Hcreated : create_succeeded store "admin" secretA st st2).
    { apply created_at_first_attempt with (st1 := st1) (k := ours);
        vm_compute; reflexivity. }
    fold st.
    rewrite (GetOrCreateSecret_nil_secret_created store "admin" secretA st st2
               (inr (StatusError StatusReasonNotFound "token-admin"))
               (interleave (world st2)) Hcreated);
      [reflexivity | vm_compute; reflexivity |].
    left. eexists. split; reflexivity.
  - pose (st := start emptied).
    pose (st1 := snd (FindSecret store "admin" st)).
    pose (st2 := snd (createSecret store secretA "admin" st1)).
    assert (Hcreated : create_succeeded store "admin" secretA st st2).
    { apply created_at_first_attempt with (st1 := st1) (k := ours);
        vm_compute; reflexivity. }
    fold st.
    rewrite (GetOrCreateSecret_nil_secret_created store "admin" secretA st st2
               (inl (keyset "token-admin" kops.SecretTypeSecret []))
               (interleave (world st2)) Hcreated);
      [reflexivity | vm_compute; reflexivity |].
    right. eexists. split; reflexivity.
Defined.

End Witnesses.

(** * More properties of the file *)

(** ** The store calls of GetOrCreateSecret *)

Section Runs.
Context {W : Type} `{KI : KopsInterface W} `{PK : Packages W}.
Variable c : ClientsetSecretStore.

Lemma calls_between_inj (st st' : State W) new new' :
  calls_between st st' new -> calls_between st st' new' -> new = new'.
Proof.
  unfold calls_between. intros H1 H2. rewrite H1 in H2.
  now apply app_inv_head in H2.
Qed.

Lemma FindSecret_inv name st out st' :
  FindSecret c name st = (out, st') ->
  exists a, out = Done a /\ loaded c name st a st'.
Proof. rewrite FindSecret_loadSecret. apply loadSecret_inv. Qed.

Lemma create_events s name st k err st' :
  createSecret c s name st = (Done (k, err), st') ->
  exists id r,
    calls_between st st' [EvCreate (namespace c) (newKeyset s name id) r] /\
    of_result r = (k, err).
Proof.
  intros Hrun. apply createSecret_inv in Hrun
    as (t & w1 & id & w2 & r & w3 & _ & _ & _ & Hout & ->).
  inversion Hout; subst. now exists id, r.
Qed.

Lemma pass_shape name secret i st step st' :
  pass c name secret i st step st' ->
  exists new, calls_between st st' new /\ pass_events c name secret step new.
Proof.
  intros Hpass.
  destruct Hpass as [s err st1 Hfind | s st1 Hfind | st1 k st2 Hfind Hcreate
                    | st1 k err st2 Hfind Hcreate Hexists Hi
                    | st1 k err st2 Hfind Hcreate Hwhy];
    apply FindSecret_inv in Hfind as (a & Ha & Hcase);
    inversion Ha; subst a; clear Ha; inversion Hcase; subst;
    try (apply create_events in Hcreate as (id & rc & Hcalls & Hres);
         destruct rc; inversion Hres; subst).
  - eexists. split; [apply calls_between_record |]. now apply events_find_error.
  - eexists. split; [apply calls_between_record |]. apply events_found.
  - eexists. split; [eapply calls_between_trans;
                       [apply calls_between_record | exact Hcalls] |].
    apply events_created.
  - eexists. split; [eapply calls_between_trans;
                       [apply calls_between_record | exact Hcalls] |].
    now apply events_conflict.
  - eexists. split; [eapply calls_between_trans;
                       [apply calls_between_record | exact Hcalls] |].
    apply events_create_error.
Qed.

Lemma after_shape name st out st' :
  GetOrCreateSecret_after c name st = (out, st') ->
  exists last, calls_between st st' last /\ after_events c name out last.
Proof.
  intros Hrun. apply after_inv in Hrun as (s & err & Hload & Hout).
  apply loadSecret_inv in Hload as (a & Ha & Hcase).
  inversion Ha; subst a; clear Ha.
  inversion Hcase; subst; cbn in Hout; subst out;
    eexists; (split; [apply calls_between_record |]).
  - apply (events_reread c name).
  - apply (events_reread c name).
  - now apply (events_fatal c name).
Qed.

(** Every run is described by [run_events]. *)
Lemma run_shape name secret st out st' :
  GetOrCreateSecret c name secret st = (out, st') ->
  exists new, calls_between st st' new /\ run_events c name secret out new.
Proof.
  intros Hrun.
  destruct (GetOrCreateSecret_cases c name secret st)
    as [(r & st1 & Hpass & Heq) | [(st1 & Hpass & Heq)
       | [(st1 & r & st2 & Hpass0 & Hpass1 & Heq)
         | (st1 & st2 & Hpass0 & Hpass1 & Heq)]]];
    rewrite Heq in Hrun.
  - inversion Hrun; subst.
    destruct (pass_shape _ _ _ _ _ _ Hpass) as (new & Hnew & Hev).
    exists new. split; [assumption | now apply run_first_return].
  - destruct (pass_shape _ _ _ _ _ _ Hpass) as (new & Hnew & Hev).
    destruct (after_shape _ _ _ _ Hrun) as (last & Hlast & Hafter).
    exists (new ++ last). split; [eapply calls_between_trans; eassumption |].
    now apply run_first_created.
  - inversion Hrun; subst.
    destruct (pass_shape _ _ _ _ _ _ Hpass0) as (new0 & Hnew0 & Hev0).
    destruct (pass_shape _ _ _ _ _ _ Hpass1) as (new1 & Hnew1 & Hev1).
    exists (new0 ++ new1). split; [eapply calls_between_trans; eassumption |].
    now apply run_second_return.
  - destruct (pass_shape _ _ _ _ _ _ Hpass0) as (new0 & Hnew0 & Hev0).
    destruct (pass_shape _ _ _ _ _ _ Hpass1) as (new1 & Hnew1 & Hev1).
    destruct (after_shape _ _ _ _ Hrun) as (last & Hlast & Hafter).
    exists ((new0 ++ new1) ++ last).
    split; [eapply calls_between_trans; [eapply calls_between_trans |]; eassumption |].
    now apply run_second_created.
Qed.

(** X1.  The store calls of a run of GetOrCreateSecret are Gets of the
    record "token-" + name and Creates of a record of that name, of the
    plain-secret type, whose single entry carries the candidate's payload,
    all in the namespace of the store; they come in turn, a Get first, and
    there is at least one.  So the run never writes without having read
    just before, and never lists, deletes or touches another record. *)
Theorem GetOrCreateSecret_call_shape name secret st out st' new :
  GetOrCreateSecret c name secret st = (out, st') ->
  calls_between st st' new ->
  new <> [] /\ alternating c name secret new.
Proof.
  intros Hrun Hnew.
  destruct (run_shape _ _ _ _ _ Hrun) as (new' & Hnew' & Hev).
  rewrite (calls_between_inj _ _ _ _ Hnew Hnew'). clear Hnew Hnew' new.
  assert (Hload : forall r, load_call c name
                              (EvGet (namespace c) (NamePrefix +:+ name) r))
    by (intros r; apply load_call_intro).
  assert (Hsubmit : forall id r,
             submit_call c name secret
                         (EvCreate (namespace c) (newKeyset secret name id) r))
    by (intros id r; apply submit_call_intro).
  destruct Hev as [res new Hp | out new last Hp Ha | res new0 new1 Hp0 Hp1
                  | out new0 new1 last Hp0 Hp1 Ha];
    repeat match goal with
           | H : pass_events _ _ _ _ _ |- _ => inversion H; subst; clear H
           | H : after_events _ _ _ _ |- _ => inversion H; subst; clear H
           end;
    (split; [discriminate |]); cbn [app];
    repeat (first [ apply alternating_pair; [apply Hload | apply Hsubmit |]
                  | apply alternating_load; apply Hload
                  | apply alternating_nil ]).
Qed.

(** X2.  When GetOrCreateSecret returns, created is true exactly when
    one of the Create calls of this run succeeded. *)
Theorem GetOrCreateSecret_created_iff name secret st s created err st' new :
  GetOrCreateSecret c name secret st = (Done (s, created, err), st') ->
  calls_between st st' new ->
  created = true <-> existsb is_successful_create new = true.
Proof.
  intros Hrun Hnew.
  destruct (run_shape _ _ _ _ _ Hrun) as (new' & Hnew' & Hev).
  rewrite (calls_between_inj _ _ _ _ Hnew Hnew'). clear Hnew Hnew' new.
  inversion Hev; subst;
    repeat match goal with
           | H : pass_events _ _ _ _ _ |- _ => inversion H; subst; clear H
           | H : after_events _ _ _ _ |- _ => inversion H; subst; clear H
           end;
    cbn; split; congruence.
Qed.

(** X3.  When GetOrCreateSecret returns an error, it returns no secret
    and created = false, and the error is either the failure of its last
    Get, which was not a not-found failure, wrapped with the prefixed
    name, or the failure of its last Create, as the store gave it. *)
Theorem GetOrCreateSecret_error_origin name secret st s created err st' new :
  GetOrCreateSecret c name secret st = (Done (s, created, Some err), st') ->
  calls_between st st' new ->
  s = None /\ created = false /\
  exists front,
    (exists cause,
        new = front ++ [EvGet (namespace c) ("token-" +:+ name) (inr cause)] /\
        IsNotFound cause = false /\
        err = Errorf "error reading keyset %q: %v"
                     [ArgString ("token-" +:+ name); ArgError cause]) \/
    (exists keyset,
        new = front ++ [EvCreate (namespace c) keyset (inr err)]).
Proof.
  intros Hrun Hnew.
  destruct (run_shape _ _ _ _ _ Hrun) as (new' & Hnew' & Hev).
  rewrite (calls_between_inj _ _ _ _ Hnew Hnew'). clear Hnew Hnew' new.
  inversion Hev; subst;
    repeat match goal with
           | H : pass_events _ _ _ _ _ |- _ => inversion H; subst; clear H
           | H : after_events _ _ _ _ |- _ => inversion H; subst; clear H
           end;
    (split; [reflexivity |]); (split; [reflexivity |]).
  - exists []. left. eexists. repeat split; try reflexivity; assumption.
  - eexists [_]. right. eexists. reflexivity.
  - eexists [_; _]. left. eexists. repeat split; try reflexivity; assumption.
  - eexists [_; _; _]. right. eexists. reflexivity.
Qed.

(** X4.  GetOrCreateSecret ends the process only in one situation: a
    create attempt of this run succeeded, and the Get of the re-read failed
    with something other than not-found. *)
Theorem GetOrCreateSecret_fatal_only_after_create name secret st format args st' :
  GetOrCreateSecret c name secret st = (Fatal format args, st') ->
  exists st2 cause w,
    create_succeeded c name secret st st2 /\
    Keysets_Get (namespace c) ("token-" +:+ name) (world st2) = (inr cause, w) /\
    IsNotFound cause = false /\
    st' = MkState w (trace st2 ++ [EvGet (namespace c) ("token-" +:+ name) (inr cause)]) /\
    format = "unable to load secret immmediately after creation %v: %v" /\
    args = [ArgString name;
            ArgError (Errorf "error reading keyset %q: %v"
                             [ArgString ("token-" +:+ name); ArgError cause])].
Proof.
  intros Hrun.
  assert (Hafter : forall st2,
             create_succeeded c name secret st st2 ->
             GetOrCreateSecret_after c name st2 = (Fatal format args, st') ->
             exists st2 cause w,
               create_succeeded c name secret st st2 /\
               Keysets_Get (namespace c) ("token-" +:+ name) (world st2) = (inr cause, w) /\
               IsNotFound cause = false /\
               st' = MkState w (trace st2 ++ [EvGet (namespace c) ("token-" +:+ name)
                                                    (inr cause)]) /\
               format = "unable to load secret immmediately after creation %v: %v" /\
               args = [ArgString name;
                       ArgError (Errorf "error reading keyset %q: %v"
                                        [ArgString ("token-" +:+ name); ArgError cause])]).
  { intros st2 Hcreated Hafter.
    apply after_inv in Hafter as (s & [err|] & Hload & Hout); [| discriminate].
    inversion Hout; subst.
    apply loadSecret_inv in Hload as (a & Ha & Hcase).
    inversion Ha; subst a; clear Ha. inversion Hcase; subst.
    exists st2, err0, w. repeat split; assumption. }
  destruct (GetOrCreateSecret_cases c name secret st)
    as [(r & st1 & Hpass & Heq) | [(st1 & Hpass & Heq)
       | [(st1 & r & st2 & Hpass0 & Hpass1 & Heq)
         | (st1 & st2 & Hpass0 & Hpass1 & Heq)]]];
    rewrite Heq in Hrun; try discriminate.
  - apply Hafter with st1; [| assumption].
    apply pass_created_inv in Hpass as (sta & k & Hfind & Hcreate).
    eapply created_at_first_attempt; eassumption.
  - apply Hafter with st2; [| assumption].
    apply pass_conflict_inv in Hpass0 as (sta & k & e & Hfind & Hcreate & Hexists & _).
    apply pass_created_inv in Hpass1 as (stb & k' & Hfind' & Hcreate').
    eapply created_at_second_attempt; eassumption.
Qed.

End Runs.

(** ** The other operations *)

Section Operations.
Context {W : Type} `{KI : KopsInterface W} `{PK : Packages W}.
Variable c : ClientsetSecretStore.

Lemma FindSecret_returns name st :
  exists a st', FindSecret c name st = (Done a, st') /\ loaded c name st a st'.
Proof.
  destruct (loadSecret_loaded c name st) as (a & st' & Hload & Hcase).
  rewrite <- FindSecret_loadSecret in Hload. eauto.
Qed.

(** What Secret makes of the answer of FindSecret. *)
Lemma Secret_run name st s err st' :
  FindSecret c name st = (Done (s, err), st') ->
  Secret c name st
  = (Done match err, s with
          | Some err, _ => (None, Some err)
          | None, None => (None, Some (Errorf "Secret not found: %q" [ArgString name]))
          | None, Some s => (Some s, None)
          end, st').
Proof.
  intros Hfind. unfold Secret. rewrite (bind_Done _ _ _ _ _ Hfind).
  destruct err as [err|]; [reflexivity |]. now destruct s.
Qed.

Lemma ListSecrets_returns st :
  exists a r w,
    Keysets_List (namespace c) (world st) = (r, w) /\
    ListSecrets c st = (Done a, record st w (EvList (namespace c) r)).
Proof.
  destruct (Keysets_List (namespace c) (world st)) as [r w] eqn:Hlist.
  unfold ListSecrets, List_.
  rewrite (bind_Done _ _ _ _ _ (call_eq _ _ _ _ _ Hlist)).
  destruct r; eauto.
Qed.

Lemma DeleteSecret_returns item st :
  exists r w,
    DeleteSecret c item st
    = (Done r, record st w (EvDeleteKeysetItem (namespace c) (fi.Name item)
                                               kops.SecretTypeKeypair (fi.Id item) r)).
Proof.
  unfold DeleteSecret.
  destruct (DeleteKeysetItem (namespace c) (fi.Name item) kops.SecretTypeKeypair
                             (fi.Id item) (world st)) as [r w] eqn:Hdel.
  exists r, w. now apply call_eq.
Qed.

(** X5.  FindSecret, Secret, ListSecrets, DeleteSecret and createSecret
    always return to their caller, whatever the store answers; VFSPath
    never does: it ends the process without calling the store. *)
Theorem VFSPath_is_the_only_accessor_that_exits :
  (forall name st, exists a st', FindSecret c name st = (Done a, st')) /\
  (forall name st, exists a st', Secret c name st = (Done a, st')) /\
  (forall st, exists a st', ListSecrets c st = (Done a, st')) /\
  (forall item st, exists a st', DeleteSecret c item st = (Done a, st')) /\
  (forall s name st, exists a st', createSecret c s name st = (Done a, st')) /\
  (forall st : State W,
      VFSPath c st = (Fatal "ClientsetSecretStore::VFSPath not implemented" [], st)).
Proof.
  repeat split.
  - intros name st. destruct (FindSecret_returns name st) as (a & st' & H & _). eauto.
  - intros name st. destruct (FindSecret_returns name st) as ([s err] & st' & H & _).
    rewrite (Secret_run _ _ _ _ _ H). eauto.
  - intros st. destruct (ListSecrets_returns st) as (a & r & w & _ & H). eauto.
  - intros item st. destruct (DeleteSecret_returns item st) as (r & w & H). eauto.
  - intros s name st.
    destruct (createSecret c s name st) as [out st'] eqn:Hrun.
    destruct (createSecret_inv _ _ _ _ _ _ Hrun)
      as (t & w1 & id & w2 & r & w3 & _ & _ & _ & -> & _).
    eauto.
Qed.

(** X6.  An error that FindSecret or Secret returns is never an API
    status: neither errors.IsNotFound nor errors.IsAlreadyExists holds of
    it, whatever the store answered; and it comes with no secret. *)
Theorem accessor_errors_carry_no_status name st s err st' :
  FindSecret c name st = (Done (s, Some err), st') \/
  Secret c name st = (Done (s, Some err), st') ->
  s = None /\ IsNotFound err = false /\ IsAlreadyExists err = false.
Proof.
  assert (Hfind : forall s0 err0 st0,
             FindSecret c name st = (Done (s0, Some err0), st0) ->
             s0 = None /\ IsNotFound err0 = false /\ IsAlreadyExists err0 = false).
  { intros s0 err0 st0 H. apply FindSecret_inv in H as (a & Ha & Hcase).
    inversion Ha; subst a. inversion Hcase; subst. now repeat split. }
  intros [H | H]; [now apply Hfind with st' |].
  destruct (FindSecret_returns name st) as ([s0 err0] & st0 & Hf & _).
  rewrite (Secret_run _ _ _ _ _ Hf) in H.
  destruct err0 as [err0|].
  - inversion H; subst. destruct (Hfind _ _ _ Hf) as (_ & ? & ?). now repeat split.
  - destruct s0; inversion H; subst. now repeat split.
Qed.

Lemma run_events_namespace name secret out new :
  run_events c name secret out new ->
  Forall (fun e => event_namespace e = namespace c) new.
Proof.
  intros Hev.
  inversion Hev; subst;
    repeat match goal with
           | H : pass_events _ _ _ _ _ |- _ => inversion H; subst; clear H
           | H : after_events _ _ _ _ |- _ => inversion H; subst; clear H
           end;
    cbn [app]; repeat constructor.
Qed.

End Operations.

(** X7.  A store built by NewClientsetSecretStore for a namespace makes
    all its store calls in that namespace, in every operation. *)
Theorem NewClientsetSecretStore_stays_in_namespace
    {W : Type} (clientset : KopsInterface W) (PK : Packages W) (ns : string) :
  let c := NewClientsetSecretStore clientset ns in
  (forall name, confined ns (FindSecret c name)) /\
  (forall name, confined ns (Secret c name)) /\
  confined ns (ListSecrets c) /\
  (forall item, confined ns (DeleteSecret c item)) /\
  (forall name secret, confined ns (GetOrCreateSecret c name secret)).
Proof.
  intros c. unfold confined. repeat split.
  - intros name st out st' H. apply FindSecret_calls in H as (r & Hcalls).
    eexists. split; [exact Hcalls |]. now repeat constructor.
  - intros name st out st' H.
    destruct (FindSecret_returns c name st) as ([s err] & st1 & Hf & _).
    rewrite (Secret_run _ _ _ _ _ _ Hf) in H. inversion H; subst.
    apply FindSecret_calls in Hf as (r & Hcalls).
    eexists. split; [exact Hcalls |]. now repeat constructor.
  - intros st out st' H.
    destruct (ListSecrets_returns c st) as (a & r & w & _ & Hl).
    rewrite Hl in H. inversion H; subst.
    eexists. split; [apply calls_between_record |]. now repeat constructor.
  - intros item st out st' H.
    destruct (DeleteSecret_returns c item st) as (r & w & Hd).
    rewrite Hd in H. inversion H; subst.
    eexists. split; [apply calls_between_record |]. now repeat constructor.
  - intros name secret st out st' H.
    destruct (run_shape _ _ _ _ _ _ H) as (new & Hnew & Hev).
    exists new. split; [exact Hnew |].
    apply (run_events_namespace c name secret out new Hev).
Qed.

(** ** Names and identifiers *)

Lemma HasPrefix_split (s p : string) :
  HasPrefix s p = true -> s = p +:+ TrimPrefix s p.
Proof.
  unfold TrimPrefix. intros H. rewrite H. unfold HasPrefix in H.
  revert s H. induction p as [|a p IH]; intros s H.
  - simpl. rewrite Nat.sub_0_r. now rewrite substring_all.
  - destruct s as [|b s]; [discriminate |]. simpl in H.
    destruct (Ascii.ascii_dec a b) as [-> | _]; [| discriminate].
    simpl.
    match goal with
    | |- _ = String b p +:+ ?x => change (String b p +:+ x) with (String b (p +:+ x))
    end.
    f_equal. now apply IH.
Qed.

Lemma TrimPrefix_NoDup (items : list kops.Keyset) :
  (forall keyset, In keyset items -> HasPrefix (kops.Name keyset) NamePrefix = true) ->
  List.NoDup (List.map kops.Name items) ->
  List.NoDup (List.map (fun keyset => TrimPrefix (kops.Name keyset) NamePrefix) items).
Proof.
  induction items as [|a items IH]; intros Hprefix Hnodup; simpl.
  - constructor.
  - inversion Hnodup as [| x l Hnotin Hrest]; subst. constructor.
    + intros Hin. apply in_map_iff in Hin as (b & Hb & Hin).
      apply Hnotin. apply in_map_iff. exists b. split; [| exact Hin].
      rewrite (HasPrefix_split (kops.Name b) NamePrefix)
        by (apply Hprefix; now right).
      rewrite (HasPrefix_split (kops.Name a) NamePrefix)
        by (apply Hprefix; now left).
      now rewrite Hb.
    + apply IH; [| exact Hrest]. intros keyset Hin. apply Hprefix. now right.
Qed.

Section Names.
Context {W : Type} `{KI : KopsInterface W} `{PK : Packages W}.
Variable c : ClientsetSecretStore.

(** X8.  When the plain-secret records the store lists have pairwise
    different names that all start with "token-", ListSecrets returns one
    name per such record, without repetition, and each name n it returns
    is that of a listed record named "token-" + n. *)
Theorem ListSecrets_distinct_names st items w :
  Keysets_List (namespace c) (world st) = (inl items, w) ->
  (forall keyset, In keyset items -> is_plain_secret keyset = true ->
                  HasPrefix (kops.Name keyset) "token-" = true) ->
  List.NoDup (List.map kops.Name (List.filter is_plain_secret items)) ->
  exists names st',
    ListSecrets c st = (Done (names, None), st') /\
    List.NoDup names /\
    length names = length (List.filter is_plain_secret items) /\
    forall n, In n names ->
              exists keyset, In keyset items /\
                             is_plain_secret keyset = true /\
                             kops.Name keyset = "token-" +:+ n.
Proof.
  intros Hlist Hprefix Hnodup.
  do 2 eexists. split; [apply ListSecrets_run; exact Hlist |].
  assert (Hfiltered : forall keyset,
             In keyset (List.filter is_plain_secret items) ->
             HasPrefix (kops.Name keyset) NamePrefix = true).
  { intros keyset Hin. apply filter_In in Hin as [Hin Hsecret]. now apply Hprefix. }
  repeat split.
  - now apply TrimPrefix_NoDup.
  - apply List.length_map.
  - intros n Hin. apply in_map_iff in Hin as (keyset & <- & Hin).
    exists keyset. apply filter_In in Hin as [Hin Hsecret].
    repeat split; try assumption.
    apply (HasPrefix_split (kops.Name keyset) NamePrefix). now apply Hprefix.
Qed.

End Names.

Lemma BigInt_String_inj (z z' : Z) : BigInt_String z = BigInt_String z' -> z = z'.
Proof.
  unfold BigInt_String. intros Heq.
  assert (Hparse : forall n, NilZero.int_of_string (NilZero.string_of_int (Z.to_int n))
                             = Some (Z.to_int n)).
  { intros n. apply NilZero.isi; destruct n as [|p|p]; simpl; try discriminate;
      intros [= Hnil]; now apply DecimalPos.Unsigned.to_uint_nonnil in Hnil. }
  apply DecimalZ.to_int_inj.
  pose proof (Hparse z) as Hz. rewrite Heq, Hparse in Hz. now inversion Hz.
Qed.

(** X9.  The decimal entry ID determines the serial: records that
    createSecret builds from different serials carry different entry IDs. *)
Theorem createSecret_ids_distinct s s' name name' (id id' : Z) :
  id <> id' ->
  List.map kops.Id (kops.Keys (kops.Spec (newKeyset s name id)))
  <> List.map kops.Id (kops.Keys (kops.Spec (newKeyset s' name' id'))).
Proof.
  intros Hne Heq. simpl in Heq. inversion Heq as [Hid].
  now apply BigInt_String_inj in Hid.
Qed.

(** ** GetOrCreateSecret on the in-memory server, without other clients *)

Section Alone.
Import Mem.
Context {rule : PrimaryRule}.
Variable c : ClientsetSecretStore.

(** The answer of the Get of loadSecret, read off the stored records. *)
Lemma get_quiet name st :
  quiet st ->
  Keysets_Get (namespace c) (NamePrefix +:+ name) (world st)
  = (match keysets (world st) !! secretKey c name with
     | Some keyset => inl keyset
     | None => inr (StatusError StatusReasonNotFound (NamePrefix +:+ name))
     end, world st).
Proof.
  intros Hq. cbn [Keysets_Get clientset]. unfold get, secretKey.
  rewrite (interleave_quiet _ Hq).
  now destruct (keysets (world st) !! (namespace c, NamePrefix +:+ name)).
Qed.

Lemma FindSecret_quiet_found name st keyset :
  quiet st ->
  keysets (world st) !! secretKey c name = Some keyset ->
  FindSecret c name st
  = (Done (parseSecret keyset), record st (world st) (EvLoad c name (inl keyset))).
Proof.
  intros Hq Hlook. rewrite FindSecret_loadSecret. apply loadSecret_found.
  rewrite (get_quiet name st Hq). now rewrite Hlook.
Qed.

Lemma FindSecret_quiet_missing name st :
  quiet st ->
  keysets (world st) !! secretKey c name = None ->
  FindSecret c name st
  = (Done (None, None),
     record st (world st)
            (EvLoad c name (inr (StatusError StatusReasonNotFound (NamePrefix +:+ name))))).
Proof.
  intros Hq Hlook. rewrite FindSecret_loadSecret. apply loadSecret_not_found.
  - rewrite (get_quiet name st Hq). now rewrite Hlook.
  - reflexivity.
Qed.

Lemma createSecret_quiet_conflict s name st keyset :
  quiet st ->
  keysets (world st) !! secretKey c name = Some keyset ->
  createSecret c s name st
  = (Done (None, Some (StatusError StatusReasonAlreadyExists (NamePrefix +:+ name))),
     MkState (ticked (world st))
             (trace st ++ [EvCreate (namespace c) (newKeyset s name (clock (world st)))
                                    (inr (StatusError StatusReasonAlreadyExists
                                                      (NamePrefix +:+ name)))])).
Proof.
  intros Hq Hlook.
  apply (createSecret_run c s name st (clock (world st)) (ticked (world st))
                          (clock (world st)) (ticked (world st))
                          (inr (StatusError StatusReasonAlreadyExists (NamePrefix +:+ name))));
    try reflexivity.
  cbn [Keysets_Create clientset]. unfold create.
  rewrite interleave_quiet by exact Hq.
  unfold secretKey in Hlook. cbn [kops.Name newKeyset ticked keysets].
  now rewrite Hlook.
Qed.

Lemma createSecret_quiet_fresh s name st :
  quiet st ->
  keysets (world st) !! secretKey c name = None ->
  createSecret c s name st
  = (Done (Some (newKeyset s name (clock (world st))), None),
     MkState (with_keysets (ticked (world st))
                (<[secretKey c name := newKeyset s name (clock (world st))]>
                   (keysets (world st))))
             (trace st ++ [EvCreate (namespace c) (newKeyset s name (clock (world st)))
                                    (inl (newKeyset s name (clock (world st))))])).
Proof.
  intros Hq Hlook.
  apply (createSecret_run c s name st (clock (world st)) (ticked (world st))
                          (clock (world st)) (ticked (world st))
                          (inl (newKeyset s name (clock (world st)))));
    try reflexivity.
  cbn [Keysets_Create clientset]. unfold create.
  rewrite interleave_quiet by exact Hq.
  unfold secretKey in Hlook. cbn [kops.Name newKeyset ticked keysets].
  now rewrite Hlook.
Qed.

(** createSecret touches no record but the one of its name. *)
Lemma createSecret_quiet_frame s name st out st' :
  quiet st ->
  createSecret c s name st = (out, st') ->
  forall k, k <> secretKey c name ->
            keysets (world st') !! k = keysets (world st) !! k.
Proof.
  intros Hq Hrun k Hk.
  destruct (keysets (world st) !! secretKey c name) as [keyset|] eqn:Hlook.
  - rewrite (createSecret_quiet_conflict s name st keyset Hq Hlook) in Hrun.
    now inversion Hrun; subst.
  - rewrite (createSecret_quiet_fresh s name st Hq Hlook) in Hrun.
    inversion Hrun; subst. simpl. now apply lookup_insert_ne.
Qed.

(** X10.  Without other clients, when the record of the name exists but
    has no primary entry, GetOrCreateSecret cannot repair it: both Create
    attempts are refused and it returns the already-exists error, leaving
    the records as they were. *)
Theorem GetOrCreateSecret_entryless_record name secret st keyset :
  quiet st ->
  keysets (world st) !! (namespace c, "token-" +:+ name) = Some keyset ->
  findPrimary keyset = None ->
  exists st' new,
    GetOrCreateSecret c name secret st
    = (Done (None, false,
             Some (StatusError StatusReasonAlreadyExists ("token-" +:+ name))), st') /\
    keysets (world st') = keysets (world st) /\
    calls_between st st' new /\
    count_events is_create new = 2%nat /\
    count_events is_successful_create new = 0%nat.
Proof.
  intros Hq Hlook Hnone.
  assert (Hparse : parseSecret keyset = (None, None)).
  { unfold parseSecret. cbn [FindPrimary packages]. now rewrite Hnone. }
  pose proof (FindSecret_quiet_found name st keyset Hq Hlook) as Hfind.
  rewrite Hparse in Hfind.
  set (st1 := record st (world st) (EvLoad c name (inl keyset))) in *.
  assert (Hq1 : quiet st1) by exact Hq.
  pose proof (createSecret_quiet_conflict secret name st1 keyset Hq1 Hlook) as Hcreate.
  match type of Hcreate with _ = (_, ?s) => set (st2 := s) in * end.
  assert (Hq2 : quiet st2) by exact Hq.
  assert (Hlook2 : keysets (world st2) !! secretKey c name = Some keyset) by exact Hlook.
  pose proof (FindSecret_quiet_found name st2 keyset Hq2 Hlook2) as Hfind'.
  rewrite Hparse in Hfind'.
  set (st3 := record st2 (world st2) (EvLoad c name (inl keyset))) in *.
  assert (Hq3 : quiet st3) by exact Hq.
  pose proof (createSecret_quiet_conflict secret name st3 keyset Hq3 Hlook2) as Hcreate'.
  match type of Hcreate' with _ = (_, ?s) => set (st4 := s) in * end.
  exists st4. eexists. split; [| split; [reflexivity | split]].
  - apply GetOrCreateSecret_continue_return with st2.
    + eapply pass_conflict; eauto.
    + eapply pass_create_error; [exact Hfind' | exact Hcreate' | right; discriminate].
  - unfold calls_between, st4, st3, st2, st1, record. cbn [trace].
    rewrite <- !app_assoc. reflexivity.
  - split; reflexivity.
Qed.

(** X11.  Without other clients, GetOrCreateSecret for a name changes no
    record but "token-" + name, so what FindSecret answers for any other
    name is what it answered before. *)
Theorem GetOrCreateSecret_leaves_other_names name secret st out st' :
  quiet st ->
  GetOrCreateSecret c name secret st = (out, st') ->
  (forall k, k <> (namespace c, "token-" +:+ name) ->
             keysets (world st') !! k = keysets (world st) !! k) /\
  (forall other, other <> name ->
                 fst (FindSecret c other st') = fst (FindSecret c other st)).
Proof.
  intros Hq Hrun.
  assert (Hinv : quiet st' /\
                 forall k, k <> secretKey c name ->
                           keysets (world st') !! k = keysets (world st) !! k).
  { apply (GetOrCreateSecret_preserves c
             (fun s => quiet s /\
                       forall k, k <> secretKey c name ->
                                 keysets (world s) !! k = keysets (world st) !! k)
             name secret) with (st := st) (out := out); [| | exact Hrun |].
    - intros sta o stb Hload [Hqa Hframe]. split.
      + eapply loadSecret_keeps_quiet; eassumption.
      + now rewrite (loadSecret_quiet _ _ _ _ _ Hload Hqa).
    - intros sta o stb Hcreate [Hqa Hframe]. split.
      + eapply createSecret_keeps_quiet; eassumption.
      + intros k Hk.
        rewrite (createSecret_quiet_frame _ _ _ _ _ Hqa Hcreate k Hk). now apply Hframe.
    - split; [exact Hq | reflexivity]. }
  destruct Hinv as [Hq' Hframe]. split; [exact Hframe |].
  intros other Hother. rewrite !FindSecret_loadSecret.
  rewrite !loadSecret_quiet_answer by assumption.
  rewrite Hframe; [reflexivity |].
  unfold secretKey. intros Heq. apply Hother.
  inversion Heq as [Hname]. unfold NamePrefix in Hname. simpl in Hname.
  now inversion Hname.
Qed.

(** X12.  Without other clients, for a name that has no record yet and a
    primary rule that selects the entry of a one-entry record:
    GetOrCreateSecret returns the candidate with created = true after a
    Get, a Create and a Get, and Secret for that name returns the
    candidate from then on. *)
Theorem GetOrCreateSecret_then_Secret name candidate st :
  quiet st ->
  keysets (world st) !! (namespace c, "token-" +:+ name) = None ->
  (forall keyset entry,
      kops.Keys (kops.Spec keyset) = [entry] -> findPrimary keyset = Some entry) ->
  exists st',
    GetOrCreateSecret c name candidate st = (Done (Some candidate, true, None), st') /\
    length (trace st') = (length (trace st) + 3)%nat /\
    fst (Secret c name st') = Done (Some candidate, None).
Proof.
  intros Hq Hlook Hrule.
  pose proof (FindSecret_quiet_missing name st Hq Hlook) as Hfind.
  match type of Hfind with _ = (_, ?s) => set (st1 := s) in * end.
  assert (Hq1 : quiet st1) by exact Hq.
  pose proof (createSecret_quiet_fresh candidate name st1 Hq1 Hlook) as Hcreate.
  match type of Hcreate with _ = (_, ?s) => set (st2 := s) in * end.
  set (keyset := newKeyset candidate name (clock (world st1))) in *.
  assert (Hq2 : quiet st2) by exact Hq.
  assert (Hlook2 : keysets (world st2) !! secretKey c name = Some keyset)
    by apply lookup_insert_eq.
  assert (Hparse : parseSecret keyset = (Some candidate, None)).
  { unfold parseSecret. cbn [FindPrimary packages].
    rewrite (Hrule keyset _ eq_refl). simpl. now destruct candidate. }
  pose proof (FindSecret_quiet_found name st2 keyset Hq2 Hlook2) as Hreread.
  rewrite Hparse in Hreread.
  match type of Hreread with _ = (_, ?s) => set (st3 := s) in * end.
  exists st3. split; [| split].
  - rewrite (GetOrCreateSecret_break c name candidate st st2)
      by (eapply pass_created; eassumption).
    apply after_value. now rewrite <- FindSecret_loadSecret.
  - unfold st3, st2, st1, record. cbn [trace]. rewrite !List.length_app. simpl. lia.
  - assert (Hq3 : quiet st3) by exact Hq.
    assert (Hlook3 : keysets (world st3) !! secretKey c name = Some keyset)
      by exact Hlook2.
    pose proof (FindSecret_quiet_found name st3 keyset Hq3 Hlook3) as Hfind3.
    rewrite Hparse in Hfind3.
    now rewrite (Secret_run c name st3 _ _ _ Hfind3).
Qed.

End Alone.
